(** * The command-execution server of the VM orchestrator (src/server.js)

    A shallow embedding of the socket handler for [execute-command], of the
    process callbacks it registers, of the three SQL statements it sends and
    of the [GET /api/jobs] handler, followed by the properties of the job
    lifecycle that hold on it.

    The handler is asynchronous: every [await db.query(...)] parks the
    running callback until the store settles the query.  The embedding keeps
    the parked callbacks in the state and lets the environment choose which
    query settles next, so that every interleaving Node can produce is a
    trace of [step]. *)

From Stdlib Require Import ZArith List String Bool Arith Lia Permutation Sorted.
Import ListNotations.
Local Open Scope string_scope.
Local Open Scope list_scope.

(** ** Data *)

Inductive job_type := local | ssh.
Inductive job_status := running | success | failed.
Inductive stream_name := stdout | stderr.

(** An entry of the [COMMANDS] object literal. *)
Record command := { type : job_type; cmd : string; args : list string }.

Definition COMMANDS : list (string * command) :=
  [ ("vm-status", {| type := local; cmd := "echo";
                     args := ["Simulating make status...done."] |});
    ("vm-logs",   {| type := local; cmd := "echo";
                     args := ["Simulating make logs...fake log output."] |});
    ("docker-ps", {| type := ssh; cmd := "echo";
                     args := ["Simulating ssh command...container up."] |}) ].

Fixpoint own_property (o : list (string * command)) (key : string) : option command :=
  match o with
  | [] => None
  | (k, c) :: rest => if String.eqb k key then Some c else own_property rest key
  end.

(** [COMMANDS] is an ordinary object literal, so [COMMANDS[key]] also finds
    what the object inherits from [Object.prototype].  Each of these is a
    function (or, for [__proto__], the prototype object itself): a truthy
    value that has no [cmd] and no [args] property. *)
Definition Object_prototype : list string :=
  [ "constructor"; "hasOwnProperty"; "isPrototypeOf"; "propertyIsEnumerable";
    "toLocaleString"; "toString"; "valueOf"; "__proto__";
    "__defineGetter__"; "__defineSetter__"; "__lookupGetter__"; "__lookupSetter__" ].

Inductive property :=
| a_command (c : command)
| inherited
| undefined.

(** [COMMANDS[key]] (line 49). *)
Definition lookup (key : string) : property :=
  match own_property COMMANDS key with
  | Some c => a_command c
  | None => if existsb (String.eqb key) Object_prototype then inherited else undefined
  end.

(** [`${c.cmd} ${c.args.join(' ')}`] (line 55). *)
Definition cmdStr (c : command) : string :=
  (cmd c ++ " " ++ String.concat " " (args c))%string.

(** Rows of the two tables of the schema. *)
Module jobs.
Record row := {
  id : string;
  type : job_type;
  command : string;
  status : job_status;
  started_at : Z;
  finished_at : option Z
}.
End jobs.

Module job_logs.
Record row := {
  job_id : string;
  timestamp : Z;
  stream : stream_name;
  data : string
}.
End job_logs.

Record database := {
  tbl_jobs : list jobs.row;
  tbl_job_logs : list job_logs.row
}.

(** The events the server sends on a socket. *)
Inductive event :=
| ev_error (message : string)
| ev_job_started (jobId : string) (command : string)
| ev_job_log (jobId : string) (st : stream_name) (data : string)
| ev_job_finished (jobId : string) (st : job_status) (exitCode : option Z).

(** ** The SQL statements *)

Inductive sql :=
| INSERT_INTO_jobs (id : string) (ty : job_type) (command : string) (st : job_status)
| INSERT_INTO_job_logs (job_id : string) (st : stream_name) (data : string)
| UPDATE_jobs (st : job_status) (id : string).

Definition has_job (id : string) (rows : list jobs.row) : bool :=
  existsb (fun r => String.eqb (jobs.id r) id) rows.

(** [SET status = $1, finished_at = NOW() WHERE id = $2] on one row. *)
Definition set_status (st : job_status) (now : Z) (id : string) (r : jobs.row) : jobs.row :=
  if String.eqb (jobs.id r) id then
    {| jobs.id := jobs.id r; jobs.type := jobs.type r; jobs.command := jobs.command r;
       jobs.status := st; jobs.started_at := jobs.started_at r;
       jobs.finished_at := Some now |}
  else r.

(** One statement executed by the store at time [now]: the new tables, or the
    message of the constraint that refused it (the primary key of [jobs], the
    foreign key of [job_logs]).  The columns an INSERT does not name take
    their defaults: [started_at] and [timestamp] are [NOW()], [finished_at]
    is NULL. *)
Definition exec_sql (q : sql) (now : Z) (d : database) : string + database :=
  match q with
  | INSERT_INTO_jobs id ty command st =>
      if has_job id (tbl_jobs d) then
        inl "duplicate key value violates unique constraint"
      else
        inr {| tbl_jobs := tbl_jobs d ++
                 [ {| jobs.id := id; jobs.type := ty; jobs.command := command;
                      jobs.status := st; jobs.started_at := now;
                      jobs.finished_at := None |} ];
               tbl_job_logs := tbl_job_logs d |}
  | INSERT_INTO_job_logs job_id st data =>
      if has_job job_id (tbl_jobs d) then
        inr {| tbl_jobs := tbl_jobs d;
               tbl_job_logs := tbl_job_logs d ++
                 [ {| job_logs.job_id := job_id; job_logs.timestamp := now;
                      job_logs.stream := st; job_logs.data := data |} ] |}
      else
        inl "insert or update on table violates foreign key constraint"
  | UPDATE_jobs st id =>
      inr {| tbl_jobs := map (set_status st now id) (tbl_jobs d);
             tbl_job_logs := tbl_job_logs d |}
  end.

(** ** The server *)

(** [code === 0 ? 'success' : 'failed'] (line 71); Node passes [null] as the
    code of a child that was ended by a signal. *)
Definition status_of_code (code : option Z) : job_status :=
  match code with
  | Some 0%Z => success
  | _ => failed
  end.

(** A callback parked at its [await], with the variables it closes over. *)
Inductive suspended :=
| awaiting_insert_job (sock : nat) (id : string) (c : command)
| awaiting_insert_log (sock : nat) (id : string) (st : stream_name) (chunk : string)
| awaiting_update_job (sock : nat) (id : string) (code : option Z).

(** The query each of them is waiting for (lines 57, 62 and 67, 72). *)
Definition stmt_of (a : suspended) : sql :=
  match a with
  | awaiting_insert_job _ id c => INSERT_INTO_jobs id (type c) (cmdStr c) running
  | awaiting_insert_log _ id st chunk => INSERT_INTO_job_logs id st chunk
  | awaiting_update_job _ id code => UPDATE_jobs (status_of_code code) id
  end.

(** A child process returned by [spawn], with the socket and job id its
    listeners close over. *)
Record child := { owner : nat; job : string; closed : bool }.

(** A promise that rejected with nobody to catch it, or an ['error'] event
    of a child that nobody listens to.  The state only records them.  For a
    rejected promise, whether Node warns or ends the process depends on its
    version and flags; the ['error'] event is thrown as an uncaught exception
    and ends the process.  A process that has ended takes no further turn;
    the tables keep what was written. *)
Inductive rejection :=
| TypeError_reading_join
| query_error (message : string)
| uncaught_error_event (message : string).

Record state := {
  db : database;
  pending : list suspended;          (* queries sent and not settled, oldest first *)
  children : list child;             (* in spawn order; the index is the pid *)
  emitted : list (nat * event);      (* every socket.emit, oldest first *)
  delivered : list (nat * event);    (* those made while the socket was connected *)
  disconnected : list nat;
  unhandled : list rejection
}.

Definition init : state :=
  {| db := {| tbl_jobs := []; tbl_job_logs := [] |};
     pending := []; children := []; emitted := []; delivered := [];
     disconnected := []; unhandled := [] |}.

Definition is_connected (sock : nat) (s : state) : bool :=
  negb (existsb (Nat.eqb sock) (disconnected s)).

(** [socket.emit(...)]: fire and forget; a disconnected socket drops the
    packet. *)
Definition emit (sock : nat) (e : event) (s : state) : state :=
  {| db := db s; pending := pending s; children := children s;
     emitted := emitted s ++ [(sock, e)];
     delivered := if is_connected sock s then delivered s ++ [(sock, e)] else delivered s;
     disconnected := disconnected s; unhandled := unhandled s |}.

(** [await db.query(...)]: the statement is sent and the callback parked. *)
Definition suspend (a : suspended) (s : state) : state :=
  {| db := db s; pending := pending s ++ [a]; children := children s;
     emitted := emitted s; delivered := delivered s;
     disconnected := disconnected s; unhandled := unhandled s |}.

Definition set_pending (p : list suspended) (s : state) : state :=
  {| db := db s; pending := p; children := children s;
     emitted := emitted s; delivered := delivered s;
     disconnected := disconnected s; unhandled := unhandled s |}.

Definition set_db (d : database) (s : state) : state :=
  {| db := d; pending := pending s; children := children s;
     emitted := emitted s; delivered := delivered s;
     disconnected := disconnected s; unhandled := unhandled s |}.

Definition set_children (c : list child) (s : state) : state :=
  {| db := db s; pending := pending s; children := c;
     emitted := emitted s; delivered := delivered s;
     disconnected := disconnected s; unhandled := unhandled s |}.

Definition reject (r : rejection) (s : state) : state :=
  {| db := db s; pending := pending s; children := children s;
     emitted := emitted s; delivered := delivered s;
     disconnected := disconnected s; unhandled := unhandled s ++ [r] |}.

Definition hang_up (sock : nat) (s : state) : state :=
  {| db := db s; pending := pending s; children := children s;
     emitted := emitted s; delivered := delivered s;
     disconnected := sock :: disconnected s; unhandled := unhandled s |}.

(** The [n]-th element of a list and the list without it. *)
Fixpoint take {A : Type} (n : nat) (l : list A) : option (A * list A) :=
  match l, n with
  | [], _ => None
  | a :: r, O => Some (a, r)
  | a :: r, S m =>
      match take m r with
      | Some (x, r') => Some (x, a :: r')
      | None => None
      end
  end.

Fixpoint mark_closed (pid : nat) (l : list child) : list child :=
  match l, pid with
  | [], _ => []
  | c :: r, O => {| owner := owner c; job := job c; closed := true |} :: r
  | c :: r, S p => c :: mark_closed p r
  end.

(** What [spawn(c.cmd, c.args)] does when line 59 is reached.  It returns a
    running child; or it throws; or it returns a child that never ran, and
    Node reports the launch failure (a missing binary, a permission denial)
    through the child's ['error'] event once the handler has returned.  The
    server registers no listener for that event (lines 60-74 listen to
    ['data'] and ['close'] only), so the event is an uncaught exception. *)
Inductive spawn_outcome :=
| spawned
| spawn_throws (message : string)
| spawn_error_event (message : string).

(** The callback resumes after its query succeeded. *)
Definition resume (a : suspended) (sp : spawn_outcome) (s : state) : state :=
  match a with
  | awaiting_insert_job sock id c =>
      let s1 := emit sock (ev_job_started id (cmdStr c)) s in
      match sp with
      | spawned =>
          set_children (children s1 ++ [ {| owner := sock; job := id; closed := false |} ]) s1
      | spawn_throws message => emit sock (ev_error message) s1     (* catch, line 76 *)
      | spawn_error_event message => reject (uncaught_error_event message) s1
      end
  | awaiting_insert_log sock id st chunk => emit sock (ev_job_log id st chunk) s
  | awaiting_update_job sock id code =>
      emit sock (ev_job_finished id (status_of_code code) code) s
  end.

(** The callback resumes with its query rejected: only line 57 sits inside
    the [try]; the process callbacks have no handler at all. *)
Definition resume_rejected (a : suspended) (message : string) (s : state) : state :=
  match a with
  | awaiting_insert_job sock _ _ => emit sock (ev_error message) s  (* catch, line 76 *)
  | awaiting_insert_log _ _ _ _ => reject (query_error message) s
  | awaiting_update_job _ _ _ => reject (query_error message) s
  end.

(** What the environment can do to the server. *)
Inductive input :=
| execute_command (sock : nat) (key : string) (uuid : string)
    (* the socket event; [uuid] is what [uuidv4()] returns *)
| query_executed (n : nat) (now : Z) (sp : spawn_outcome)
    (* the store runs the [n]-th pending query at time [now] *)
| query_failed (n : nat) (message : string)
    (* the [n]-th pending query is lost: connection error, timeout *)
| data (pid : nat) (st : stream_name) (chunk : string)
    (* ['data'] on [p.stdout] or [p.stderr] *)
| close (pid : nat) (code : option Z)
    (* ['close'] on [p] *)
| disconnect (sock : nat).

(** One turn of the event loop.  An input the environment cannot produce (a
    query that is not pending, an event of a child that does not exist or has
    closed) leaves the state as it is. *)
Definition step (s : state) (i : input) : state :=
  match i with
  | execute_command sock key uuid =>
      match lookup key with
      | undefined =>
          emit sock (ev_error ("Unknown command: " ++ key)%string) s
      | inherited =>
          (* [c.args] is undefined: [c.args.join] throws at line 55, before the [try] *)
          reject TypeError_reading_join s
      | a_command c =>
          suspend (awaiting_insert_job sock uuid c) s
      end
  | query_executed n now sp =>
      match take n (pending s) with
      | None => s
      | Some (a, rest) =>
          let s1 := set_pending rest s in
          match exec_sql (stmt_of a) now (db s1) with
          | inl message => resume_rejected a message s1
          | inr d => resume a sp (set_db d s1)
          end
      end
  | query_failed n message =>
      match take n (pending s) with
      | None => s
      | Some (a, rest) => resume_rejected a message (set_pending rest s)
      end
  | data pid st chunk =>
      match nth_error (children s) pid with
      | Some c =>
          if closed c then s
          else suspend (awaiting_insert_log (owner c) (job c) st chunk) s
      | None => s
      end
  | close pid code =>
      match nth_error (children s) pid with
      | Some c =>
          if closed c then s
          else suspend (awaiting_update_job (owner c) (job c) code)
                       (set_children (mark_closed pid (children s)) s)
      | None => s
      end
  | disconnect sock => hang_up sock s
  end.

Definition run (s : state) (tr : list input) : state := fold_left step tr s.

(** ** The history endpoint *)

Fixpoint insert_desc (r : jobs.row) (l : list jobs.row) : list jobs.row :=
  match l with
  | [] => [r]
  | x :: t =>
      if (jobs.started_at x <=? jobs.started_at r)%Z then r :: x :: t
      else x :: insert_desc r t
  end.

(** [ORDER BY started_at DESC]; rows with equal [started_at] come in an order
    SQL leaves open, here the order of the table. *)
Definition ORDER_BY_started_at_DESC (rows : list jobs.row) : list jobs.row :=
  fold_right insert_desc [] rows.

(** The query of line 40; all six columns of [jobs] are selected. *)
Definition SELECT_jobs (rows : list jobs.row) : list jobs.row :=
  firstn 10 (ORDER_BY_started_at_DESC rows).

Inductive response :=
| res_json (rows : list jobs.row)
| res_status_500 (error : string).

(** [GET /api/jobs?limit=N]: [limit] is [req.query.limit], which the handler
    never reads; [failure] is the message of the rejected query, if any. *)
Definition api_jobs (limit : option nat) (failure : option string)
    (rows : list jobs.row) : response :=
  match failure with
  | Some message => res_status_500 message
  | None => res_json (SELECT_jobs rows)
  end.

(** ** Observations on a state *)

Definition count {A : Type} (p : A -> bool) (l : list A) : nat := List.length (filter p l).

Definition is_row (id : string) (r : jobs.row) : bool := String.eqb (jobs.id r) id.

Definition is_terminal (st : job_status) : bool :=
  match st with
  | running => false
  | success | failed => true
  end.

Definition is_terminal_row (id : string) (r : jobs.row) : bool :=
  is_row id r && is_terminal (jobs.status r).

Definition is_live (id : string) (c : child) : bool :=
  negb (closed c) && String.eqb (job c) id.

Definition is_update (id : string) (a : suspended) : bool :=
  match a with
  | awaiting_update_job _ i _ => String.eqb i id
  | _ => false
  end.

Definition is_log (id : string) (a : suspended) : bool :=
  match a with
  | awaiting_insert_log _ i _ _ => String.eqb i id
  | _ => false
  end.

(** The job an event belongs to; [error] events carry no job id. *)
Definition of_job (id : string) (e : nat * event) : bool :=
  match snd e with
  | ev_error _ => false
  | ev_job_started i _ => String.eqb i id
  | ev_job_log i _ _ => String.eqb i id
  | ev_job_finished i _ _ => String.eqb i id
  end.

Definition is_started (id : string) (e : nat * event) : bool :=
  match snd e with
  | ev_job_started i _ => String.eqb i id
  | _ => false
  end.

Definition is_finished (id : string) (e : nat * event) : bool :=
  match snd e with
  | ev_job_finished i _ _ => String.eqb i id
  | _ => false
  end.

(** The first event of the job, if there is one, is its [job-started]. *)
Fixpoint started_first (id : string) (l : list (nat * event)) : bool :=
  match l with
  | [] => true
  | e :: r => if of_job id e then is_started id e else started_first id r
  end.

(** Nothing of the job follows its [job-finished]. *)
Fixpoint finished_last (id : string) (l : list (nat * event)) : bool :=
  match l with
  | [] => true
  | e :: r => if is_finished id e then negb (existsb (of_job id) r) else finished_last id r
  end.

(** No log insert of the job was sent after its finalize update. *)
Fixpoint logs_before_update (id : string) (l : list suspended) : bool :=
  match l with
  | [] => true
  | a :: r => if is_update id a then negb (existsb (is_log id) r) else logs_before_update id r
  end.

(** The invariant of section 3 of the specification, on one row. *)
Definition row_ok (r : jobs.row) : Prop :=
  jobs.finished_at r <> None <-> (jobs.status r = success \/ jobs.status r = failed).

(** What holds of one job id in every state the server reaches. *)
Record job_inv (id : string) (s : state) : Prop := {
  inv_key : count (is_row id) (tbl_jobs (db s)) <= 1;
  inv_once : count (is_live id) (children s) + count (is_update id) (pending s)
             + count (is_terminal_row id) (tbl_jobs (db s))
             <= count (is_row id) (tbl_jobs (db s));
  inv_started : count (is_started id) (emitted s) <= count (is_row id) (tbl_jobs (db s));
  inv_finished : count (is_finished id) (emitted s)
                 <= count (is_terminal_row id) (tbl_jobs (db s));
  inv_active : 1 <= count (is_live id) (children s) + count (is_log id) (pending s)
                    + count (is_update id) (pending s) ->
               1 <= count (of_job id) (emitted s);
  inv_events : 1 <= count (of_job id) (emitted s) ->
               1 <= count (is_row id) (tbl_jobs (db s));
  inv_first : started_first id (emitted s) = true
}.

Definition wf (s : state) : Prop := forall id, job_inv id s.

(** The store settles the queries in the order they were sent. *)
Definition in_order (i : input) : Prop :=
  match i with
  | query_executed n _ _ => n = 0
  | query_failed n _ => n = 0
  | _ => True
  end.


(** A job nothing will touch again: it has a row, no running child and no
    finalize update on its way. *)
Definition quiet (id : string) (s : state) : Prop :=
  1 <= count (is_row id) (tbl_jobs (db s)) /\
  count (is_live id) (children s) = 0 /\
  count (is_update id) (pending s) = 0.

Definition rows_of (id : string) (s : state) : list jobs.row :=
  filter (is_row id) (tbl_jobs (db s)).



(** ** Auxiliary definitions of the statements *)


Definition log_event (sock : nat) (id : string) (ch : stream_name * string) : nat * event :=
  (sock, ev_job_log id (fst ch) (snd ch)).

Definition log_row (id : string) (now : Z) (ch : stream_name * string) : job_logs.row :=
  {| job_logs.job_id := id; job_logs.timestamp := now;
     job_logs.stream := fst ch; job_logs.data := snd ch |}.

Definition newer_or_equal (a b : jobs.row) : Prop := (jobs.started_at b <= jobs.started_at a)%Z.

(** What one turn of the loop can do to the [jobs] table. *)
Inductive jobs_written (before after : list jobs.row) : Prop :=
| untouched : after = before -> jobs_written before after
| created (id : string) (ty : job_type) (command : string) (now : Z) :
    after = before ++ [ {| jobs.id := id; jobs.type := ty; jobs.command := command;
                           jobs.status := running; jobs.started_at := now;
                           jobs.finished_at := None |} ] ->
    jobs_written before after
| finalized (code : option Z) (now : Z) (id : string) :
    after = map (set_status (status_of_code code) now id) before ->
    jobs_written before after.

Definition one_job_trace : list input :=
  [ execute_command 0 "vm-status" "j1"; query_executed 0 100%Z spawned;
    data 0 stdout "hi"; query_executed 0 101%Z spawned;
    close 0 (Some 0%Z); query_executed 0 102%Z spawned ].

Definition chunk_sent_trace : list input :=
  [ execute_command 0 "vm-status" "j1"; query_executed 0 100%Z spawned;
    data 0 stdout "hi" ].

Definition closed_job_trace : list input :=
  [ execute_command 0 "vm-status" "j1"; query_executed 0 100%Z spawned;
    close 0 (Some 0%Z) ].

Definition failed_finalize_state : state :=
  run init (closed_job_trace ++ [query_failed 0 "timeout exceeded"]).

Definition launch_failure_state : state :=
  run init [ execute_command 0 "vm-status" "j1";
             query_executed 0 100%Z (spawn_error_event "spawn echo ENOENT") ].

Definition spawn_failure_state : state :=
  run init [ execute_command 0 "vm-status" "j1";
             query_executed 0 100%Z (spawn_throws "spawn ENOMEM") ].

Definition finished_job_trace : list input :=
  closed_job_trace ++ [query_executed 0 101%Z spawned].

Definition finished_db : database :=
  {| tbl_jobs := [ {| jobs.id := "j1"; jobs.type := local;
                      jobs.command := "echo Simulating make status...done.";
                      jobs.status := success; jobs.started_at := 100%Z;
                      jobs.finished_at := Some 101%Z |} ];
     tbl_job_logs := [] |}.

Definition fifteen_jobs : list jobs.row :=
  map (fun n => {| jobs.id := String (Ascii.ascii_of_nat (65 + n)) "";
                   jobs.type := local;
                   jobs.command := "echo Simulating make status...done.";
                   jobs.status := success;
                   jobs.started_at := Z.of_nat (100 + n);
                   jobs.finished_at := Some (Z.of_nat (101 + n)) |})
      (seq 0 15).

Definition racing_trace : list input :=
  [ execute_command 0 "vm-status" "j1"; query_executed 0 100%Z spawned;
    data 0 stdout "hi"; close 0 (Some 0%Z);
    query_executed 1 101%Z spawned; query_executed 0 102%Z spawned ].

(** ** Further observations: tables, sockets, chunks *)

(** Every log row references a job of the [jobs] table. *)
Definition logs_owned (d : database) : Prop :=
  Forall (fun l => has_job (job_logs.job_id l) (tbl_jobs d) = true) (tbl_job_logs d).

(** The columns of a job no statement of the server sets after the insert. *)
Definition fixed_columns (r : jobs.row) : string * job_type * string * Z :=
  (jobs.id r, jobs.type r, jobs.command r, jobs.started_at r).



(** The id and command of every job of the table. *)
Definition job_commands (rows : list jobs.row) : list (string * string) :=
  map (fun r => (jobs.id r, jobs.command r)) rows.

(** Every [job-started] sent so far names a job of the table, with the
    command stored there. *)
Definition started_recorded (s : state) : Prop :=
  forall sock id command,
    In (sock, ev_job_started id command) (emitted s) ->
    In (id, command) (job_commands (tbl_jobs (db s))).

(** Every [job-finished] sent so far reports the status its code decides, and
    the job has that status and a [finished_at] in the table. *)
Definition finished_recorded (s : state) : Prop :=
  forall sock id st code,
    In (sock, ev_job_finished id st code) (emitted s) ->
    st = status_of_code code /\
    rows_of id s <> [] /\
    Forall (fun r => jobs.status r = st /\ jobs.finished_at r <> None) (rows_of id s).

(** The children spawned for a job, running or closed. *)
Definition is_child (id : string) (c : child) : bool := String.eqb (job c) id.

(** No job has more children than rows. *)
Definition children_counted (s : state) : Prop :=
  forall id, count (is_child id) (children s) <= count (is_row id) (tbl_jobs (db s)).

(** The socket a parked process callback will send to, and the job it
    belongs to. *)
Definition waits_on (id : string) (k : nat) (a : suspended) : Prop :=
  match a with
  | awaiting_insert_job _ _ _ => False
  | awaiting_insert_log k' i _ _ => i = id /\ k' = k
  | awaiting_update_job k' i _ => i = id /\ k' = k
  end.

(** Socket [k] has been sent an event of the job, or owns a child of the job,
    or is the target of a callback of the job that is still parked. *)
Definition serves (id : string) (s : state) (k : nat) : Prop :=
  (exists e, In (k, e) (emitted s) /\ of_job id (k, e) = true) \/
  (exists c, In c (children s) /\ job c = id /\ owner c = k) \/
  (exists a, In a (pending s) /\ waits_on id k a).

Definition one_socket (s : state) : Prop :=
  forall id k k', serves id s k -> serves id s k' -> k = k'.

(** A trace with its [disconnect] inputs taken out. *)
Definition is_disconnect (i : input) : bool :=
  match i with
  | disconnect _ => true
  | _ => false
  end.

Definition without_disconnects (tr : list input) : list input :=
  filter (fun i => negb (is_disconnect i)) tr.

(** The events of a list that went to socket [k]. *)
Definition sent_to (k : nat) (l : list (nat * event)) : list (nat * event) :=
  filter (fun e => Nat.eqb (fst e) k) l.

(** ** The page (the script of the Svelte component) *)

(** The three variables of the script, and what it has asked of the server:
    the keys sent with [socket.emit('execute-command', cmd)] and the number
    of [fetch('/api/jobs')] calls. *)
Module App.
Record t := {
  status : string;
  logs : string;
  jobs : response;
  emits : list string;
  fetches : nat
}.
End App.

(** The page once [onMount] has run: the handlers are registered and the
    first fetch is on its way. *)
Definition mounted : App.t :=
  {| App.status := "connecting"; App.logs := ""; App.jobs := res_json [];
     App.emits := []; App.fetches := 1 |}.

Inductive page_input :=
| socket_connect
| socket_disconnect
| socket_event (e : event)       (* an event the server delivered *)
| fetch_done (j : response)      (* a fetch resolved; [j] is its JSON *)
| click (cmd : string).          (* a button calls [exec(cmd)] *)

(** The handlers of the script.  It listens to [job-log] and [job-finished]
    only, and looks at no job id. *)
Definition page_step (p : App.t) (i : page_input) : App.t :=
  match i with
  | socket_connect =>
      {| App.status := "connected"; App.logs := App.logs p; App.jobs := App.jobs p;
         App.emits := App.emits p; App.fetches := App.fetches p |}
  | socket_disconnect =>
      {| App.status := "disconnected"; App.logs := App.logs p; App.jobs := App.jobs p;
         App.emits := App.emits p; App.fetches := App.fetches p |}
  | socket_event (ev_job_log _ _ d) =>
      {| App.status := App.status p; App.logs := (App.logs p ++ d)%string;
         App.jobs := App.jobs p; App.emits := App.emits p; App.fetches := App.fetches p |}
  | socket_event (ev_job_finished _ _ _) =>
      {| App.status := App.status p; App.logs := App.logs p; App.jobs := App.jobs p;
         App.emits := App.emits p; App.fetches := S (App.fetches p) |}
  | socket_event _ => p
  | fetch_done j =>
      {| App.status := App.status p; App.logs := App.logs p; App.jobs := j;
         App.emits := App.emits p; App.fetches := App.fetches p |}
  | click cmd =>
      {| App.status := App.status p; App.logs := ""; App.jobs := App.jobs p;
         App.emits := App.emits p ++ [cmd]; App.fetches := App.fetches p |}
  end.

Definition page_run (p : App.t) (l : list page_input) : App.t := fold_left page_step l p.

Definition is_click (i : page_input) : bool :=
  match i with
  | click _ => true
  | _ => false
  end.

(** The chunk a page input adds to the console, if any. *)
Definition shown (i : page_input) : string :=
  match i with
  | socket_event (ev_job_log _ _ d) => d
  | _ => ""
  end.



(** The chunks of a job, by stream: those stored in [job_logs], those whose
    append is still pending, and both in a row. *)
Definition stored_chunk (id : string) (r : job_logs.row) : list (stream_name * string) :=
  if String.eqb (job_logs.job_id r) id then [(job_logs.stream r, job_logs.data r)] else [].

Definition pending_chunk (id : string) (a : suspended) : list (stream_name * string) :=
  match a with
  | awaiting_insert_log _ i st chunk => if String.eqb i id then [(st, chunk)] else []
  | _ => []
  end.

Definition chunks_of (id : string) (s : state) : list (stream_name * string) :=
  flat_map (stored_chunk id) (tbl_job_logs (db s)) ++ flat_map (pending_chunk id) (pending s).

(** The chunk an input brings to a job: a ['data'] event of its running
    child. *)
Definition arrived (id : string) (s : state) (i : input) : list (stream_name * string) :=
  match i with
  | data pid st chunk =>
      match nth_error (children s) pid with
      | Some c => if closed c then [] else if String.eqb (job c) id then [(st, chunk)] else []
      | None => []
      end
  | _ => []
  end.

Fixpoint arrivals (id : string) (s : state) (tr : list input) : list (stream_name * string) :=
  match tr with
  | [] => []
  | i :: tr' => arrived id s i ++ arrivals id (step s i) tr'
  end.

Definition is_failure (i : input) : bool :=
  match i with
  | query_failed _ _ => true
  | _ => false
  end.

Definition two_sockets_trace : list input :=
  [ execute_command 0 "vm-status" "j1"; execute_command 1 "vm-logs" "j2";
    query_executed 1 100%Z spawned; query_executed 0 101%Z spawned;
    data 0 stdout "logs"; data 1 stderr "status";
    query_executed 1 102%Z spawned; query_executed 0 103%Z spawned ].

Definition interleaved_trace : list input :=
  [ execute_command 0 "vm-status" "j1"; execute_command 1 "vm-logs" "j2";
    query_executed 0 100%Z spawned; query_executed 0 101%Z spawned;
    data 0 stdout "a"; data 1 stdout "x"; data 0 stderr "b";
    query_executed 0 102%Z spawned; data 0 stdout "c";
    query_executed 0 103%Z spawned; query_executed 0 104%Z spawned;
    query_executed 0 105%Z spawned ].

(** ** Counting lemmas *)

Local Open Scope nat_scope.

Arguments count : simpl never.

Lemma count_nil {A : Type} (p : A -> bool) : count p [] = 0.
Proof. reflexivity. Qed.

Lemma count_cons {A : Type} (p : A -> bool) (a : A) (l : list A) :
  count p (a :: l) = (if p a then 1 else 0) + count p l.
Proof. unfold count; simpl; destruct (p a); reflexivity. Qed.

Lemma count_app {A : Type} (p : A -> bool) (l1 l2 : list A) :
  count p (l1 ++ l2) = count p l1 + count p l2.
Proof. unfold count; rewrite filter_app, length_app; reflexivity. Qed.

Lemma count_last {A : Type} (p : A -> bool) (l : list A) (a : A) :
  count p (l ++ [a]) = count p l + (if p a then 1 else 0).
Proof. rewrite count_app, count_cons, count_nil; lia. Qed.

Lemma existsb_count {A : Type} (p : A -> bool) (l : list A) :
  existsb p l = negb (count p l =? 0).
Proof.
  induction l as [|a l IH]; [reflexivity|].
  simpl; rewrite count_cons, IH; destruct (p a); simpl; reflexivity.
Qed.

Lemma has_job_count (id : string) (rows : list jobs.row) :
  has_job id rows = negb (count (is_row id) rows =? 0).
Proof. apply (existsb_count (is_row id)). Qed.

Lemma take_count {A : Type} (p : A -> bool) (n : nat) (l : list A) (a : A) (rest : list A) :
  take n l = Some (a, rest) ->
  count p l = (if p a then 1 else 0) + count p rest.
Proof.
  revert n a rest; induction l as [|x l IH]; intros n a rest H; [destruct n; discriminate|].
  destruct n as [|n]; simpl in H.
  - inversion H; subst; apply count_cons.
  - destruct (take n l) as [[y r']|] eqn:E; [|discriminate].
    inversion H; subst; rewrite !count_cons, (IH _ _ _ E); lia.
Qed.

Lemma take_head {A : Type} (l : list A) (a : A) (rest : list A) :
  take 0 l = Some (a, rest) -> l = a :: rest.
Proof. destruct l; simpl; intros H; inversion H; reflexivity. Qed.

Lemma set_status_id st now id r : jobs.id (set_status st now id r) = jobs.id r.
Proof. unfold set_status; destruct (String.eqb (jobs.id r) id); reflexivity. Qed.

Lemma count_rows_update (id' : string) st now id (l : list jobs.row) :
  count (is_row id') (map (set_status st now id) l) = count (is_row id') l.
Proof.
  induction l as [|r l IH]; [reflexivity|].
  simpl; rewrite !count_cons, IH; unfold is_row; rewrite set_status_id; reflexivity.
Qed.

Lemma count_terminal_update (id' : string) st now id (l : list jobs.row) :
  count (is_terminal_row id') (map (set_status st now id) l) =
  if String.eqb id id' then
    (if is_terminal st then count (is_row id') l else 0)
  else count (is_terminal_row id') l.
Proof.
  induction l as [|r l IH].
  - simpl; rewrite !count_nil; destruct (String.eqb id id'), (is_terminal st); reflexivity.
  - simpl; rewrite !count_cons, IH; clear IH.
    unfold is_terminal_row, is_row; rewrite set_status_id.
    unfold set_status.
    destruct (String.eqb (jobs.id r) id) eqn:E1; destruct (String.eqb id id') eqn:E2;
      destruct (String.eqb (jobs.id r) id') eqn:E3; simpl;
      try rewrite String.eqb_eq in *; try rewrite String.eqb_neq in *;
      try congruence; destruct (is_terminal st); simpl; try reflexivity;
      try rewrite E3; reflexivity.
Qed.

Lemma rows_update_other (id' : string) st now id (l : list jobs.row) :
  String.eqb id id' = false ->
  filter (is_row id') (map (set_status st now id) l) = filter (is_row id') l.
Proof.
  intros Hne; induction l as [|r l IH]; [reflexivity|].
  simpl; rewrite IH.
  assert (Hid : is_row id' (set_status st now id r) = is_row id' r)
    by (unfold is_row; rewrite set_status_id; reflexivity).
  rewrite Hid; destruct (is_row id' r) eqn:E; [|reflexivity].
  f_equal; unfold set_status; destruct (String.eqb (jobs.id r) id) eqn:E1; [|reflexivity].
  unfold is_row in E; apply String.eqb_eq in E, E1; apply String.eqb_neq in Hne; congruence.
Qed.

Lemma mark_closed_live (id : string) (pid : nat) (l : list child) (c : child) :
  nth_error l pid = Some c -> closed c = false ->
  count (is_live id) l =
  (if String.eqb (job c) id then 1 else 0) + count (is_live id) (mark_closed pid l).
Proof.
  revert pid; induction l as [|x l IH]; intros pid Hn Hc.
  - destruct pid; discriminate.
  - destruct pid as [|pid]; simpl in *.
    + inversion Hn; subst; rewrite !count_cons; unfold is_live; simpl; rewrite Hc; simpl.
      lia.
    + rewrite !count_cons, (IH _ Hn Hc); lia.
Qed.

Lemma nth_error_live (id : string) (pid : nat) (l : list child) (c : child) :
  nth_error l pid = Some c -> closed c = false ->
  1 <= count (is_live (job c)) l.
Proof.
  intros Hn Hc; rewrite (mark_closed_live (job c) pid l c Hn Hc), String.eqb_refl; lia.
Qed.

Lemma started_first_last (id : string) (l : list (nat * event)) (e : nat * event) :
  started_first id (l ++ [e]) =
  started_first id l && (negb (of_job id e) || is_started id e || negb (count (of_job id) l =? 0)).
Proof.
  induction l as [|x l IH]; cbn [app started_first].
  - rewrite count_nil; destruct (of_job id e), (is_started id e); reflexivity.
  - rewrite count_cons; destruct (of_job id x); cbn [Nat.add Nat.eqb negb].
    + rewrite orb_true_r, andb_true_r; reflexivity.
    + exact IH.
Qed.


Lemma is_started_of_job id e : is_started id e = true -> of_job id e = true.
Proof. unfold is_started, of_job; destruct (snd e); intros H; congruence. Qed.

Lemma finished_last_last (id : string) (l : list (nat * event)) (e : nat * event) :
  finished_last id (l ++ [e]) =
  finished_last id l && (negb (of_job id e) || (count (is_finished id) l =? 0)).
Proof.
  induction l as [|x l IH]; cbn [app finished_last].
  - rewrite count_nil; cbn [Nat.eqb existsb negb andb]; rewrite orb_true_r.
    destruct (is_finished id e); reflexivity.
  - rewrite count_cons; destruct (is_finished id x) eqn:Ex; cbn [Nat.add Nat.eqb].
    + rewrite orb_false_r, existsb_app; cbn [existsb].
      rewrite orb_false_r, negb_orb; reflexivity.
    + exact IH.
Qed.

Lemma logs_before_update_last (id : string) (l : list suspended) (a : suspended) :
  logs_before_update id (l ++ [a]) =
  logs_before_update id l && (negb (is_log id a) || (count (is_update id) l =? 0)).
Proof.
  induction l as [|x l IH]; cbn [app logs_before_update].
  - rewrite count_nil; cbn [Nat.eqb existsb negb andb]; rewrite orb_true_r.
    destruct (is_update id a); reflexivity.
  - rewrite count_cons; destruct (is_update id x) eqn:Ex; cbn [Nat.add Nat.eqb].
    + rewrite orb_false_r, existsb_app; cbn [existsb].
      rewrite orb_false_r, negb_orb; reflexivity.
    + exact IH.
Qed.

(** ** The rows keep the invariant of the data model *)

Lemma db_resume a sp s : db (resume a sp s) = db s.
Proof. destruct a; try destruct sp; reflexivity. Qed.

Lemma db_resume_rejected a m s : db (resume_rejected a m s) = db s.
Proof. destruct a; reflexivity. Qed.

Lemma set_status_ok (code : option Z) now id r :
  row_ok r -> row_ok (set_status (status_of_code code) now id r).
Proof.
  unfold set_status; destruct (String.eqb (jobs.id r) id); [|trivial].
  intros _; unfold row_ok; simpl; split; [intros _|discriminate].
  destruct code as [[| |]|]; simpl; auto.
Qed.

Lemma exec_sql_rows_ok a now d d' :
  Forall row_ok (tbl_jobs d) ->
  exec_sql (stmt_of a) now d = inr d' ->
  Forall row_ok (tbl_jobs d').
Proof.
  intros Hok; destruct a as [sock id c|sock id st chunk|sock id code]; simpl.
  - destruct (has_job id (tbl_jobs d)); [discriminate|].
    intros H; inversion H; subst; simpl.
    apply Forall_app; split; [exact Hok|].
    constructor; [|constructor].
    unfold row_ok; simpl; split; [congruence|intros [H'|H']; discriminate].
  - destruct (has_job id (tbl_jobs d)); [|discriminate].
    intros H; inversion H; subst; exact Hok.
  - intros H; inversion H; subst; simpl.
    apply Forall_map; revert Hok; apply Forall_impl; intros r; apply set_status_ok.
Qed.

Lemma step_rows_ok s i :
  Forall row_ok (tbl_jobs (db s)) -> Forall row_ok (tbl_jobs (db (step s i))).
Proof.
  intros Hok; destruct i as [sock key uuid|n now sp|n m|pid st chunk|pid code|sock];
    unfold step.
  - destruct (lookup key); exact Hok.
  - destruct (take n (pending s)) as [[a rest]|]; [|exact Hok].
    cbv zeta; destruct (exec_sql (stmt_of a) now (db (set_pending rest s))) as [m|d] eqn:E.
    + rewrite db_resume_rejected; exact Hok.
    + rewrite db_resume; simpl; exact (exec_sql_rows_ok _ _ _ _ Hok E).
  - destruct (take n (pending s)) as [[a rest]|]; [|exact Hok].
    rewrite db_resume_rejected; exact Hok.
  - destruct (nth_error (children s) pid) as [c|]; [|exact Hok].
    destruct (closed c); exact Hok.
  - destruct (nth_error (children s) pid) as [c|]; [|exact Hok].
    destruct (closed c); exact Hok.
  - exact Hok.
Qed.

Lemma run_rows_ok tr : forall s,
  Forall row_ok (tbl_jobs (db s)) -> Forall row_ok (tbl_jobs (db (run s tr))).
Proof.
  induction tr as [|i tr IH]; intros s Hok; [exact Hok|].
  simpl; apply IH, step_rows_ok, Hok.
Qed.

(** ** The lifecycle invariant is kept by every turn of the event loop *)

Ltac eqb_cases :=
  repeat match goal with
  | |- context [String.eqb ?a ?b] =>
      let E := fresh "E" in
      destruct (String.eqb a b) eqn:E;
      [apply String.eqb_eq in E; subst; rewrite ?String.eqb_refl in * | rewrite ?E in *]
  | H : context [if String.eqb ?a ?b then _ else _] |- _ =>
      let E := fresh "E" in
      destruct (String.eqb a b) eqn:E;
      [apply String.eqb_eq in E; subst; rewrite ?String.eqb_refl in * | rewrite ?E in *]
  end.

Ltac nat_eqb_cases :=
  repeat match goal with
  | |- context [Nat.eqb ?a 0] =>
      let E := fresh "E" in
      destruct (Nat.eqb a 0) eqn:E;
      [apply Nat.eqb_eq in E | apply Nat.eqb_neq in E]
  end.

(** The observations on concrete rows and events, as rewrite rules. *)
Lemma is_row_eq id r : is_row id r = String.eqb (jobs.id r) id.
Proof. reflexivity. Qed.
Lemma is_terminal_row_eq id r :
  is_terminal_row id r = String.eqb (jobs.id r) id && is_terminal (jobs.status r).
Proof. reflexivity. Qed.
Lemma is_live_eq id c : is_live id c = negb (closed c) && String.eqb (job c) id.
Proof. reflexivity. Qed.
Lemma of_job_error id k m : of_job id (k, ev_error m) = false.
Proof. reflexivity. Qed.
Lemma of_job_started id k i c : of_job id (k, ev_job_started i c) = String.eqb i id.
Proof. reflexivity. Qed.
Lemma of_job_log id k i st d : of_job id (k, ev_job_log i st d) = String.eqb i id.
Proof. reflexivity. Qed.
Lemma of_job_finished id k i st c : of_job id (k, ev_job_finished i st c) = String.eqb i id.
Proof. reflexivity. Qed.
Lemma is_started_error id k m : is_started id (k, ev_error m) = false.
Proof. reflexivity. Qed.
Lemma is_started_started id k i c : is_started id (k, ev_job_started i c) = String.eqb i id.
Proof. reflexivity. Qed.
Lemma is_started_log id k i st d : is_started id (k, ev_job_log i st d) = false.
Proof. reflexivity. Qed.
Lemma is_started_finished id k i st c : is_started id (k, ev_job_finished i st c) = false.
Proof. reflexivity. Qed.
Lemma is_finished_error id k m : is_finished id (k, ev_error m) = false.
Proof. reflexivity. Qed.
Lemma is_finished_started id k i c : is_finished id (k, ev_job_started i c) = false.
Proof. reflexivity. Qed.
Lemma is_finished_log id k i st d : is_finished id (k, ev_job_log i st d) = false.
Proof. reflexivity. Qed.
Lemma is_finished_finished id k i st c :
  is_finished id (k, ev_job_finished i st c) = String.eqb i id.
Proof. reflexivity. Qed.
Lemma is_terminal_status_of_code code : is_terminal (status_of_code code) = true.
Proof. destruct code as [[| |]|]; reflexivity. Qed.

Create Rewrite HintDb obs.
#[local] Hint Rewrite @count_last count_rows_update count_terminal_update
  started_first_last finished_last_last logs_before_update_last
  is_row_eq is_terminal_row_eq is_live_eq
  of_job_error of_job_started of_job_log of_job_finished
  is_started_error is_started_started is_started_log is_started_finished
  is_finished_error is_finished_started is_finished_log is_finished_finished
  is_terminal_status_of_code : obs.

Ltac counts :=
  cbn [db pending children emitted delivered disconnected unhandled
       emit suspend set_pending set_db set_children reject hang_up
       tbl_jobs tbl_job_logs];
  autorewrite with obs;
  cbn [is_update is_log closed job owner jobs.id jobs.status negb andb orb is_terminal].

Ltac settle K7 :=
  split; counts; rewrite ?K7; eqb_cases; nat_eqb_cases;
  cbn [andb orb negb]; try lia; try reflexivity.

Lemma job_inv_step id s i : job_inv id s -> job_inv id (step s i).
Proof.
  intros [K1 K2 K3 K4 K5 K6 K7].
  destruct i as [sock key uuid|n now sp|n m|pid st chunk|pid code|sock]; unfold step.
  - destruct (lookup key); settle K7.
  - destruct (take n (pending s)) as [[a rest]|] eqn:Et; [|split; assumption].
    pose proof (take_count (is_update id) _ _ _ _ Et) as Hu.
    pose proof (take_count (is_log id) _ _ _ _ Et) as Hl.
    cbv zeta.
    destruct a as [sk id0 c|sk id0 st chunk|sk id0 code];
      cbn [stmt_of exec_sql db set_pending]; cbn [is_update is_log] in Hu, Hl;
      rewrite ?has_job_count.
    + destruct (count (is_row id0) (tbl_jobs (db s)) =? 0) eqn:E0;
        cbn [negb resume_rejected resume];
        [apply Nat.eqb_eq in E0; destruct sp|]; settle K7.
    + destruct (count (is_row id0) (tbl_jobs (db s)) =? 0) eqn:E0;
        cbn [negb resume_rejected resume];
        [|apply Nat.eqb_neq in E0]; settle K7.
    + cbn [resume]; settle K7.
  - destruct (take n (pending s)) as [[a rest]|] eqn:Et; [|split; assumption].
    pose proof (take_count (is_update id) _ _ _ _ Et) as Hu.
    pose proof (take_count (is_log id) _ _ _ _ Et) as Hl.
    destruct a as [sk id0 c|sk id0 st chunk|sk id0 code];
      cbn [resume_rejected]; cbn [is_update is_log] in Hu, Hl; settle K7.
  - destruct (nth_error (children s) pid) as [c|] eqn:En; [|split; assumption].
    destruct (closed c) eqn:Ec; [split; assumption|].
    pose proof (nth_error_live id _ _ _ En Ec) as Hlive.
    settle K7.
  - destruct (nth_error (children s) pid) as [c|] eqn:En; [|split; assumption].
    destruct (closed c) eqn:Ec; [split; assumption|].
    pose proof (mark_closed_live id _ _ _ En Ec) as Hlive.
    settle K7.
  - split; assumption.
Qed.

(** ** What in-order settlement adds *)



(** ** Reachable states *)

Lemma wf_init : wf init.
Proof. intros id; split; cbn [init db pending children emitted tbl_jobs]; rewrite ?count_nil; try lia; reflexivity. Qed.

Lemma wf_step s i : wf s -> wf (step s i).
Proof. intros H id; apply job_inv_step, H. Qed.

Lemma wf_run tr : forall s, wf s -> wf (run s tr).
Proof.
  induction tr as [|i tr IH]; intros s H; [exact H|].
  simpl; apply IH, wf_step, H.
Qed.





(** ** A job with no running child and no finalize update on its way is never
    written again *)
Lemma rows_of_insert id s r :
  filter (is_row id) (tbl_jobs (db s) ++ [r]) =
  filter (is_row id) (tbl_jobs (db s)) ++ (if String.eqb (jobs.id r) id then [r] else []).
Proof. rewrite filter_app; cbn [filter]; rewrite is_row_eq; destruct (String.eqb (jobs.id r) id); reflexivity. Qed.

Lemma quiet_step id s i :
  quiet id s -> quiet id (step s i) /\ rows_of id (step s i) = rows_of id s.
Proof.
  intros (Q1 & Q2 & Q3); unfold quiet, rows_of.
  destruct i as [sock key uuid|n now sp|n m|pid st chunk|pid code|sock]; unfold step.
  - destruct (lookup key); counts; repeat split; try lia; reflexivity.
  - destruct (take n (pending s)) as [[a rest]|] eqn:Et; [|repeat split; assumption].
    pose proof (take_count (is_update id) _ _ _ _ Et) as Hu.
    cbv zeta.
    destruct a as [sk id0 c|sk id0 st chunk|sk id0 code];
      cbn [stmt_of exec_sql db set_pending]; cbn [is_update] in Hu;
      rewrite ?has_job_count.
    + destruct (count (is_row id0) (tbl_jobs (db s)) =? 0) eqn:E0;
        cbn [negb resume_rejected resume];
        [apply Nat.eqb_eq in E0; destruct sp|]; counts; rewrite ?rows_of_insert;
        cbn [jobs.id]; eqb_cases; rewrite ?app_nil_r; repeat split; try lia; try reflexivity.
    + destruct (count (is_row id0) (tbl_jobs (db s)) =? 0) eqn:E0;
        cbn [negb resume_rejected resume]; counts; repeat split; try lia; reflexivity.
    + cbn [resume]; counts. destruct (String.eqb id0 id) eqn:E; [lia|].
      rewrite (rows_update_other _ _ _ _ _ E); repeat split; try lia; reflexivity.
  - destruct (take n (pending s)) as [[a rest]|] eqn:Et; [|repeat split; assumption].
    pose proof (take_count (is_update id) _ _ _ _ Et) as Hu.
    destruct a; cbn [resume_rejected]; counts; repeat split; try lia; reflexivity.
  - destruct (nth_error (children s) pid) as [c|] eqn:En; [|repeat split; assumption].
    destruct (closed c) eqn:Ec; [repeat split; assumption|].
    counts; repeat split; try lia; reflexivity.
  - destruct (nth_error (children s) pid) as [c|] eqn:En; [|repeat split; assumption].
    destruct (closed c) eqn:Ec; [repeat split; assumption|].
    pose proof (mark_closed_live id _ _ _ En Ec) as Hlive.
    counts; eqb_cases; repeat split; try lia; reflexivity.
  - repeat split; assumption.
Qed.

Lemma quiet_run id tr : forall s,
  quiet id s -> quiet id (run s tr) /\ rows_of id (run s tr) = rows_of id s.
Proof.
  induction tr as [|i tr IH]; intros s Q; [split; [exact Q|reflexivity]|].
  simpl; destruct (quiet_step id s i Q) as [Q' E].
  destruct (IH _ Q') as [Q'' E']; split; [exact Q''|congruence].
Qed.

(** ** The run of one job, all queries succeeding in order *)

Lemma take_last {A : Type} (l : list A) (a : A) : take (List.length l) (l ++ [a]) = Some (a, l).
Proof. induction l as [|x l IH]; [reflexivity|]; simpl; rewrite IH; reflexivity. Qed.



Lemma filter_rows_update id st now (l : list jobs.row) :
  filter (is_row id) (map (set_status st now id) l) =
  map (set_status st now id) (filter (is_row id) l).
Proof.
  induction l as [|r l IH]; [reflexivity|].
  cbn [map filter]; rewrite IH.
  assert (Hid : is_row id (set_status st now id r) = is_row id r)
    by (unfold is_row; rewrite set_status_id; reflexivity).
  rewrite Hid; destruct (is_row id r); reflexivity.
Qed.

Lemma filter_none {A : Type} (p : A -> bool) (l : list A) :
  count p l = 0 -> filter p l = [].
Proof. unfold count; destruct (filter p l); [reflexivity|discriminate]. Qed.



Lemma step_data s pid c st chunk :
  nth_error (children s) pid = Some c -> closed c = false ->
  step s (data pid st chunk) = suspend (awaiting_insert_log (owner c) (job c) st chunk) s.
Proof. intros H Hc; unfold step; rewrite H, Hc; reflexivity. Qed.

Lemma step_close s pid c code :
  nth_error (children s) pid = Some c -> closed c = false ->
  step s (close pid code) =
  suspend (awaiting_update_job (owner c) (job c) code)
          (set_children (mark_closed pid (children s)) s).
Proof. intros H Hc; unfold step; rewrite H, Hc; reflexivity. Qed.

Lemma step_query_executed s n a rest now sp d :
  take n (pending s) = Some (a, rest) ->
  exec_sql (stmt_of a) now (db s) = inr d ->
  step s (query_executed n now sp) = resume a sp (set_db d (set_pending rest s)).
Proof. intros H He; unfold step; rewrite H; cbv zeta; cbn [db set_pending]; rewrite He; reflexivity. Qed.

Lemma step_query_refused s n a rest now sp m :
  take n (pending s) = Some (a, rest) ->
  exec_sql (stmt_of a) now (db s) = inl m ->
  step s (query_executed n now sp) = resume_rejected a m (set_pending rest s).
Proof. intros H He; unfold step; rewrite H; cbv zeta; cbn [db set_pending]; rewrite He; reflexivity. Qed.

Lemma step_query_failed s n a rest m :
  take n (pending s) = Some (a, rest) ->
  step s (query_failed n m) = resume_rejected a m (set_pending rest s).
Proof. intros H; unfold step; rewrite H; reflexivity. Qed.



(** ** [ORDER BY started_at DESC LIMIT 10] *)

Lemma insert_desc_perm r l : Permutation (r :: l) (insert_desc r l).
Proof.
  induction l as [|x l IH]; cbn [insert_desc]; [apply Permutation_refl|].
  destruct (jobs.started_at x <=? jobs.started_at r)%Z; [apply Permutation_refl|].
  apply perm_trans with (x :: r :: l); [apply perm_swap|apply perm_skip, IH].
Qed.

Lemma order_by_perm l : Permutation l (ORDER_BY_started_at_DESC l).
Proof.
  induction l as [|r l IH]; cbn; [apply perm_nil|].
  apply perm_trans with (r :: ORDER_BY_started_at_DESC l);
    [apply perm_skip, IH|apply insert_desc_perm].
Qed.

Lemma insert_desc_sorted r l :
  StronglySorted newer_or_equal l -> StronglySorted newer_or_equal (insert_desc r l).
Proof.
  induction l as [|x l IH]; intros Hs; cbn [insert_desc].
  - constructor; constructor.
  - inversion Hs as [|? ? Hl Hx]; subst.
    destruct (jobs.started_at x <=? jobs.started_at r)%Z eqn:E.
    + apply Z.leb_le in E; constructor; [exact Hs|].
      constructor; [exact E|].
      revert Hx; apply Forall_impl; intros y Hy; unfold newer_or_equal in *; lia.
    + apply Z.leb_gt in E; constructor; [apply IH, Hl|].
      apply (Permutation_Forall (insert_desc_perm r l)).
      constructor; [unfold newer_or_equal; lia|exact Hx].
Qed.

Lemma order_by_sorted l : StronglySorted newer_or_equal (ORDER_BY_started_at_DESC l).
Proof.
  induction l as [|r l IH]; cbn; [constructor|apply insert_desc_sorted, IH].
Qed.

Lemma sorted_firstn n l :
  StronglySorted newer_or_equal l ->
  StronglySorted newer_or_equal (firstn n l) /\
  Forall (fun y => Forall (fun x => newer_or_equal x y) (firstn n l)) (skipn n l).
Proof.
  revert n; induction l as [|x l IH]; intros n Hs.
  - destruct n; cbn; split; constructor.
  - destruct n as [|n]; cbn [firstn skipn].
    + split; [constructor|]. apply Forall_forall; intros; constructor.
    + inversion Hs as [|? ? Hl Hx]; subst.
      destruct (IH n Hl) as [S1 S2]; split.
      * constructor; [exact S1|].
        apply Forall_forall; intros y Hy; rewrite Forall_forall in Hx; apply Hx.
        rewrite <- (firstn_skipn n l); apply in_or_app; left; exact Hy.
      * rewrite Forall_forall in *; intros y Hy; constructor; [|apply S2, Hy].
        apply Hx; rewrite <- (firstn_skipn n l); apply in_or_app; right; exact Hy.
Qed.

(** ** What one turn does to the tables, and what follows for a job *)

Lemma step_jobs_written s i :
  jobs_written (tbl_jobs (db s)) (tbl_jobs (db (step s i))).
Proof.
  destruct i as [sock key uuid|n now sp|n m|pid st chunk|pid code|sock]; unfold step.
  - destruct (lookup key); apply untouched; reflexivity.
  - destruct (take n (pending s)) as [[a rest]|]; [|apply untouched; reflexivity].
    cbv zeta; destruct (exec_sql (stmt_of a) now (db (set_pending rest s))) as [m|d] eqn:E.
    + rewrite db_resume_rejected; apply untouched; reflexivity.
    + rewrite db_resume; cbn [db set_db]; cbn [db set_pending] in E.
      destruct a as [sk id c|sk id st chunk|sk id code]; cbn [stmt_of exec_sql] in E.
      * destruct (has_job id (tbl_jobs (db s))); [discriminate|].
        inversion E; subst; cbn [tbl_jobs]; eapply created; reflexivity.
      * destruct (has_job id (tbl_jobs (db s))); [|discriminate].
        inversion E; subst; apply untouched; reflexivity.
      * inversion E; subst; cbn [tbl_jobs]; eapply finalized; reflexivity.
  - destruct (take n (pending s)) as [[a rest]|]; [|apply untouched; reflexivity].
    rewrite db_resume_rejected; apply untouched; reflexivity.
  - destruct (nth_error (children s) pid) as [c|]; [|apply untouched; reflexivity].
    destruct (closed c); apply untouched; reflexivity.
  - destruct (nth_error (children s) pid) as [c|]; [|apply untouched; reflexivity].
    destruct (closed c); apply untouched; reflexivity.
  - apply untouched; reflexivity.
Qed.

Lemma single_row {A : Type} (p : A -> bool) (l : list A) :
  count p l = 1 -> exists r, filter p l = [r].
Proof.
  unfold count; destruct (filter p l) as [|r [|r' t]]; try discriminate.
  intros _; exists r; reflexivity.
Qed.

Lemma count_terminal_filter id (l : list jobs.row) :
  count (is_terminal_row id) l =
  count (fun r => is_terminal (jobs.status r)) (filter (is_row id) l).
Proof.
  induction l as [|r l IH]; [reflexivity|].
  rewrite count_cons, is_terminal_row_eq; cbn [filter]; rewrite is_row_eq.
  destruct (String.eqb (jobs.id r) id); cbn [andb]; rewrite ?count_cons, IH; reflexivity.
Qed.

Lemma terminal_of_rows id s s' :
  rows_of id s' = rows_of id s ->
  count (is_terminal_row id) (tbl_jobs (db s')) = count (is_terminal_row id) (tbl_jobs (db s)).
Proof. unfold rows_of; intros H; rewrite !count_terminal_filter, H; reflexivity. Qed.

Lemma rows_running id s :
  count (is_terminal_row id) (tbl_jobs (db s)) = 0 ->
  Forall (fun r => jobs.status r = running) (rows_of id s).
Proof.
  unfold rows_of; induction (tbl_jobs (db s)) as [|r l IH]; [constructor|].
  rewrite count_cons, is_terminal_row_eq; cbn [filter]; rewrite is_row_eq.
  destruct (String.eqb (jobs.id r) id); cbn [andb]; intros H.
  - constructor; [|apply IH; lia].
    destruct (jobs.status r); cbn in H; try reflexivity; lia.
  - apply IH; lia.
Qed.

(** A quiet job that is [running] stays [running] and never gets its
    [job-finished]. *)
Lemma quiet_running_forever id s tr :
  wf s -> quiet id s ->
  count (is_terminal_row id) (tbl_jobs (db s)) = 0 ->
  rows_of id (run s tr) = rows_of id s /\
  Forall (fun r => jobs.status r = running) (rows_of id (run s tr)) /\
  count (is_finished id) (emitted (run s tr)) = 0.
Proof.
  intros Hwf Q Hterm.
  destruct (quiet_run id tr s Q) as [_ Hrows].
  pose proof (terminal_of_rows id s (run s tr) Hrows) as Ht.
  split; [exact Hrows|split].
  - apply rows_running; lia.
  - destruct (wf_run tr s Hwf id) as [_ _ _ K4 _ _ _]; lia.
Qed.

Lemma quiet_after_failed_finalize : quiet "j1" failed_finalize_state.
Proof. unfold quiet; vm_compute; repeat split; apply le_n. Qed.

Lemma quiet_after_spawn_failure : quiet "j1" spawn_failure_state.
Proof. unfold quiet; vm_compute; repeat split; apply le_n. Qed.

(** A key that [COMMANDS] neither owns nor inherits gets the [error] event
    and nothing else. *)
Lemma unknown_key_rejected s sock key uuid :
  lookup key = undefined ->
  step s (execute_command sock key uuid) =
  emit sock (ev_error ("Unknown command: " ++ key)%string) s.
Proof. intros H; unfold step; rewrite H; reflexivity. Qed.

(** No key outside the registry creates a job or starts a process. *)
Lemma unregistered_key_creates_nothing s sock key uuid :
  own_property COMMANDS key = None ->
  let s' := step s (execute_command sock key uuid) in
  db s' = db s /\ children s' = children s /\ pending s' = pending s /\
  forall id, count (of_job id) (emitted s') = count (of_job id) (emitted s).
Proof.
  intros H; cbv zeta; unfold step, lookup; rewrite H.
  destruct (existsb (String.eqb key) Object_prototype); cbn; repeat split; try reflexivity.
  intros id; rewrite count_last; cbn; lia.
Qed.




(** * The claims of the specification *)

(** C1. In every state the server reaches, a row of [jobs] has a non-null
    [finished_at] if and only if its [status] is [success] or [failed].  A turn
    of the event loop leaves the table alone, or appends a row with status
    [running] and [finished_at] NULL, or runs the finalize update, which sets
    a terminal status and [finished_at] in the same statement. *)
Theorem finished_at_iff_terminal (s : state) (tr : list input) :
  Forall row_ok (tbl_jobs (db s)) ->
  (forall r, In r (tbl_jobs (db (run s tr))) ->
     jobs.finished_at r <> None <->
     (jobs.status r = success \/ jobs.status r = failed)) /\
  (forall i, jobs_written (tbl_jobs (db (run s tr))) (tbl_jobs (db (step (run s tr) i)))) /\
  (forall code now id r,
     jobs.id r = id ->
     is_terminal (jobs.status (set_status (status_of_code code) now id r)) = true /\
     jobs.finished_at (set_status (status_of_code code) now id r) = Some now).
Proof.
  intros Hok; split; [|split].
  - intros r Hr; pose proof (run_rows_ok tr s Hok) as H.
    rewrite Forall_forall in H; exact (H r Hr).
  - intros i; apply step_jobs_written.
  - intros code now id r Hid; unfold set_status.
    rewrite Hid, String.eqb_refl; cbn [jobs.status jobs.finished_at].
    rewrite is_terminal_status_of_code; auto.
Qed.

Lemma finished_at_iff_terminal_witness :
  Forall row_ok (tbl_jobs (db init)) /\
  forall r, In r (tbl_jobs (db (run init one_job_trace))) ->
    jobs.finished_at r <> None <->
    (jobs.status r = success \/ jobs.status r = failed).
Proof.
  split; [constructor|].
  exact (proj1 (finished_at_iff_terminal init one_job_trace (Forall_nil row_ok))).
Defined.




(** C3, as the server has it.  The [job-log] event of a chunk is sent when the
    append of the chunk has succeeded, and only then: a failed append sends
    nothing for the chunk and is not repeated, a successful one adds exactly
    one row and sends exactly one event.  The append is complete before the
    event is sent, so a socket that has gone away loses the event and leaves
    the row as it is. *)
Theorem job_log_follows_append (s : state) (n sock : nat) (id : string)
    (st : stream_name) (chunk : string) (rest : list suspended) :
  take n (pending s) = Some (awaiting_insert_log sock id st chunk, rest) ->
  (forall message,
     let s' := step s (query_failed n message) in
     emitted s' = emitted s /\ delivered s' = delivered s /\
     tbl_job_logs (db s') = tbl_job_logs (db s) /\ pending s' = rest) /\
  (forall now sp,
     has_job id (tbl_jobs (db s)) = true ->
     let s' := step s (query_executed n now sp) in
     tbl_job_logs (db s') = tbl_job_logs (db s) ++ [log_row id now (st, chunk)] /\
     emitted s' = emitted s ++ [(sock, ev_job_log id st chunk)] /\
     delivered s' = (if is_connected sock s
                     then delivered s ++ [(sock, ev_job_log id st chunk)]
                     else delivered s) /\
     pending s' = rest) /\
  (forall pid c st' chunk',
     nth_error (children s) pid = Some c -> closed c = false ->
     let s' := step s (data pid st' chunk') in
     pending s' = pending s ++ [awaiting_insert_log (owner c) (job c) st' chunk'] /\
     emitted s' = emitted s /\ db s' = db s).
Proof.
  intros Ht; split; [|split].
  - intros message; cbv zeta; rewrite (step_query_failed _ _ _ _ _ Ht).
    cbn; auto.
  - intros now sp Hj; cbv zeta.
    erewrite step_query_executed;
      [|exact Ht|cbn [stmt_of exec_sql]; rewrite Hj; reflexivity].
    cbn; auto.
  - intros pid c st' chunk' Hn Hc; cbv zeta; rewrite (step_data _ _ _ _ _ Hn Hc).
    cbn; auto.
Qed.

Lemma job_log_follows_append_witness :
  let s := run init chunk_sent_trace in
  let s' := step s (query_failed 0 "connection terminated unexpectedly") in
  emitted s' = emitted s /\ delivered s' = delivered s /\
  tbl_job_logs (db s') = tbl_job_logs (db s) /\ pending s' = [].
Proof.
  exact (proj1 (job_log_follows_append (run init chunk_sent_trace) 0 0 "j1" stdout "hi" []
                  eq_refl) "connection terminated unexpectedly").
Defined.

(** C3 as stated fails: the socket is connected throughout, the append of
    the chunk fails, and no [job-log] event is sent for it. *)
Lemma failed_append_suppresses_job_log :
  let s := run init (chunk_sent_trace ++
                     [query_failed 0 "connection terminated unexpectedly"]) in
  disconnected s = [] /\
  pending s = [] /\
  tbl_job_logs (db s) = [] /\
  map snd (delivered s) = [ev_job_started "j1" "echo Simulating make status...done."].
Proof. vm_compute; auto. Qed.

(** C4, as the server has it.  The [close] callback sends one finalize
    update that carries the status its exit code decides: [success] for
    code 0, [failed] for every other code and for the null code of a child
    ended by a signal.  Until that update is settled the job's row is
    [running].  When the update is executed the row has the decided status
    and a [finished_at], and [job-finished] reports the same status and the
    code; when the update fails the row stays as it is, [running], and
    nothing is sent. *)
Theorem exit_code_decides_status (s : state) (n sock : nat) (id : string)
    (code : option Z) (rest : list suspended) (now : Z) (sp : spawn_outcome) :
  wf s ->
  take n (pending s) = Some (awaiting_update_job sock id code, rest) ->
  (exists r, rows_of id (step s (query_executed n now sp)) = [r] /\
             jobs.status r = status_of_code code /\
             jobs.finished_at r = Some now) /\
  emitted (step s (query_executed n now sp)) =
    emitted s ++ [(sock, ev_job_finished id (status_of_code code) code)] /\
  (forall s0 pid c,
     nth_error (children s0) pid = Some c -> closed c = false ->
     pending (step s0 (close pid code)) =
     pending s0 ++ [awaiting_update_job (owner c) (job c) code]) /\
  (code = Some 0%Z -> status_of_code code = success) /\
  (code <> Some 0%Z -> status_of_code code = failed) /\
  (code = None -> status_of_code code = failed) /\
  Forall (fun r => jobs.status r = running) (rows_of id s) /\
  (forall message,
     rows_of id (step s (query_failed n message)) = rows_of id s /\
     emitted (step s (query_failed n message)) = emitted s).
Proof.
  intros Hwf Ht.
  destruct (Hwf id) as [K1 K2 _ _ _ _ _].
  pose proof (take_count (is_update id) _ _ _ _ Ht) as Hu; cbn [is_update] in Hu.
  rewrite String.eqb_refl in Hu.
  erewrite step_query_executed;
    [|exact Ht|cbn [stmt_of exec_sql]; reflexivity].
  unfold rows_of; cbn [resume db set_db set_pending emit tbl_jobs emitted].
  split; [|split; [reflexivity|split]].
  - destruct (single_row (is_row id) (tbl_jobs (db s))) as [r Hr]; [lia|].
    rewrite filter_rows_update, Hr; cbn [map].
    assert (Hid : is_row id r = true).
    { assert (Hin : In r (filter (is_row id) (tbl_jobs (db s))))
        by (rewrite Hr; left; reflexivity).
      apply filter_In in Hin; tauto. }
    rewrite is_row_eq in Hid.
    eexists; split; [reflexivity|]; unfold set_status; rewrite Hid; auto.
  - intros s0 pid c Hn Hc; rewrite (step_close s0 pid c code Hn Hc); reflexivity.
  - repeat split.
    + intros ->; reflexivity.
    + destruct code as [[| |]|]; try reflexivity; congruence.
    + intros ->; reflexivity.
    + apply (rows_running id s); lia.
    + rewrite (step_query_failed _ _ _ _ _ Ht); reflexivity.
    + rewrite (step_query_failed _ _ _ _ _ Ht); reflexivity.
Qed.

Lemma exit_code_decides_status_witness :
  exists r, rows_of "j1" (step (run init closed_job_trace)
                               (query_executed 0 102%Z spawned)) = [r] /\
            jobs.status r = success /\ jobs.finished_at r = Some 102%Z.
Proof.
  exact (proj1 (exit_code_decides_status (run init closed_job_trace) 0 0 "j1"
                  (Some 0%Z) [] 102%Z spawned
                  (wf_run closed_job_trace init wf_init) eq_refl)).
Defined.

(** C4 as stated fails: the child of the job has closed with exit code 0,
    whose status is [success]; the finalize update fails, and the job is
    [running] in every later state. *)
Lemma exit_zero_job_left_running :
  children failed_finalize_state = [ {| owner := 0; job := "j1"; closed := true |} ] /\
  status_of_code (Some 0%Z) = success /\
  forall tr, map jobs.status (rows_of "j1" (run failed_finalize_state tr)) = [running].
Proof.
  split; [reflexivity|split; [reflexivity|]].
  intros tr.
  rewrite (proj2 (quiet_run "j1" tr _ quiet_after_failed_finalize)); reflexivity.
Qed.

(** C5, as the server has it.  The finalize update is sent once per job, when
    its child closes, so a row that has reached [success] or [failed] is
    never written again.  The statement itself carries no guard: executed on
    a job that is already terminal it sets the status its exit code decides
    and a new [finished_at]. *)
Theorem terminal_row_is_final (s0 : state) (tr tr' : list input) (id : string) :
  wf s0 ->
  1 <= count (is_terminal_row id) (tbl_jobs (db (run s0 tr))) ->
  rows_of id (run (run s0 tr) tr') = rows_of id (run s0 tr) /\
  (forall sock code now d,
     exec_sql (stmt_of (awaiting_update_job sock id code)) now d =
     inr {| tbl_jobs := map (set_status (status_of_code code) now id) (tbl_jobs d);
            tbl_job_logs := tbl_job_logs d |}) /\
  (forall code now r,
     jobs.id r = id ->
     jobs.status (set_status (status_of_code code) now id r) = status_of_code code /\
     jobs.finished_at (set_status (status_of_code code) now id r) = Some now).
Proof.
  intros Hwf Hterm; split; [|split].
  - destruct (wf_run tr s0 Hwf id) as [K1 K2 _ _ _ _ _].
    apply quiet_run; unfold quiet; lia.
  - reflexivity.
  - intros code now r Hid; unfold set_status; rewrite Hid, String.eqb_refl; auto.
Qed.

Lemma terminal_row_is_final_witness :
  rows_of "j1" (run (run init finished_job_trace)
                    [close 0 (Some 1%Z); execute_command 0 "vm-status" "j1";
                     query_executed 0 200%Z spawned]) =
  rows_of "j1" (run init finished_job_trace).
Proof.
  refine (proj1 (terminal_row_is_final init finished_job_trace
                   [close 0 (Some 1%Z); execute_command 0 "vm-status" "j1";
                    query_executed 0 200%Z spawned] "j1" wf_init _)).
  vm_compute; apply le_n.
Defined.

(** C5 as stated fails: the finalize statement of a close with code 1,
    executed on a job that is already [success], is not a no-op. *)
Lemma second_finalize_overwrites :
  exec_sql (stmt_of (awaiting_update_job 0 "j1" (Some 1%Z))) 200%Z finished_db =
  inr {| tbl_jobs := [ {| jobs.id := "j1"; jobs.type := local;
                          jobs.command := "echo Simulating make status...done.";
                          jobs.status := failed; jobs.started_at := 100%Z;
                          jobs.finished_at := Some 200%Z |} ];
         tbl_job_logs := [] |}.
Proof. reflexivity. Qed.

(** C6, as the server has it.  When the insert of a job has succeeded and
    the process cannot be launched, the handler has sent [job-started] and
    the row it has just inserted is not finalized: it is [running] in every
    later state, and no [job-finished] is ever sent.  If [spawn] throws, the
    [error] of the [catch] follows [job-started]; if the failure comes
    through the child's ['error'] event, nothing follows it and the event is
    an uncaught exception.  No child is left in either case. *)
Theorem spawn_failure_leaves_job_running (s : state) (n sock : nat) (id : string)
    (c : command) (rest : list suspended) (now : Z) (sp : spawn_outcome)
    (tr : list input) :
  wf s ->
  take n (pending s) = Some (awaiting_insert_job sock id c, rest) ->
  has_job id (tbl_jobs (db s)) = false ->
  sp <> spawned ->
  let s' := step s (query_executed n now sp) in
  emitted s' =
    emitted s ++ (sock, ev_job_started id (cmdStr c))
              :: match sp with
                 | spawn_throws message => [(sock, ev_error message)]
                 | _ => []
                 end /\
  unhandled s' =
    unhandled s ++ match sp with
                   | spawn_error_event message => [uncaught_error_event message]
                   | _ => []
                   end /\
  children s' = children s /\
  rows_of id (run s' tr) =
    [ {| jobs.id := id; jobs.type := type c; jobs.command := cmdStr c;
         jobs.status := running; jobs.started_at := now; jobs.finished_at := None |} ] /\
  count (is_finished id) (emitted (run s' tr)) = 0.
Proof.
  intros Hwf Ht Hj Hsp; cbv zeta.
  pose proof (take_count (is_update id) _ _ _ _ Ht) as Hu; cbn [is_update] in Hu.
  destruct (Hwf id) as [K1 K2 _ _ _ _ _].
  pose proof (wf_step s (query_executed n now sp) Hwf) as Hwf'.
  pose proof Hj as Hz; rewrite has_job_count in Hz; apply negb_false_iff, Nat.eqb_eq in Hz.
  erewrite step_query_executed in *;
    [|exact Ht|cbn [stmt_of exec_sql]; rewrite Hj; reflexivity
     |exact Ht|cbn [stmt_of exec_sql]; rewrite Hj; reflexivity].
  match goal with |- context [run ?x tr] => set (s' := x) in * end.
  assert (Hrows : rows_of id s' =
            [ {| jobs.id := id; jobs.type := type c; jobs.command := cmdStr c;
                 jobs.status := running; jobs.started_at := now;
                 jobs.finished_at := None |} ]).
  { subst s'; unfold rows_of; rewrite db_resume; cbn [db set_db tbl_jobs].
    rewrite filter_app, (filter_none _ _ Hz); cbn [filter app].
    rewrite is_row_eq; cbn [jobs.id]; rewrite String.eqb_refl; reflexivity. }
  assert (Hch : children s' = children s)
    by (subst s'; destruct sp; [congruence|reflexivity|reflexivity]).
  assert (Hpe : pending s' = rest)
    by (subst s'; destruct sp; reflexivity).
  assert (Q : quiet id s').
  { unfold quiet; rewrite Hch, Hpe.
    change (count (is_row id) (tbl_jobs (db s'))) with (List.length (rows_of id s')).
    rewrite Hrows; cbn; lia. }
  assert (Hterm : count (is_terminal_row id) (tbl_jobs (db s')) = 0).
  { rewrite count_terminal_filter.
    change (filter (is_row id) (tbl_jobs (db s'))) with (rows_of id s').
    rewrite Hrows; reflexivity. }
  destruct (quiet_running_forever id s' tr Hwf' Q Hterm) as (R1 & R2 & R3).
  split; [subst s'; destruct sp; [congruence| |]; cbn; rewrite <- ?app_assoc; reflexivity|].
  split; [subst s'; destruct sp; [congruence| |]; cbn; rewrite ?app_nil_r; reflexivity|].
  split; [exact Hch|].
  split; [rewrite R1; exact Hrows|exact R3].
Qed.

Lemma spawn_failure_leaves_job_running_witness :
  rows_of "j1" (run (step (run init [execute_command 0 "vm-status" "j1"])
                          (query_executed 0 100%Z (spawn_error_event "spawn echo ENOENT")))
                    [close 0 (Some 0%Z); query_executed 0 101%Z spawned]) =
    [ {| jobs.id := "j1"; jobs.type := local;
         jobs.command := "echo Simulating make status...done.";
         jobs.status := running; jobs.started_at := 100%Z; jobs.finished_at := None |} ].
Proof.
  refine (proj1 (proj2 (proj2 (proj2
    (spawn_failure_leaves_job_running (run init [execute_command 0 "vm-status" "j1"])
       0 0 "j1" _ [] 100%Z (spawn_error_event "spawn echo ENOENT")
       [close 0 (Some 0%Z); query_executed 0 101%Z spawned]
       (wf_run [execute_command 0 "vm-status" "j1"] init wf_init) eq_refl eq_refl _))))).
  discriminate.
Defined.

Lemma quiet_after_launch_failure : quiet "j1" launch_failure_state.
Proof. unfold quiet; vm_compute; repeat split; apply le_n. Qed.

(** C6 as stated fails.  The binary is missing: the socket gets
    [job-started] and nothing else, the ['error'] event of the child is an
    uncaught exception, no child is left, and the row is [running] in every
    later state.  The same holds of the row when [spawn] throws, where the
    socket gets [job-started] and the [error]. *)
Lemma spawn_failure_job_stays_running :
  (map snd (emitted launch_failure_state) =
     [ ev_job_started "j1" "echo Simulating make status...done." ] /\
   unhandled launch_failure_state = [uncaught_error_event "spawn echo ENOENT"] /\
   pending launch_failure_state = [] /\
   children launch_failure_state = [] /\
   forall tr,
     rows_of "j1" (run launch_failure_state tr) =
       [ {| jobs.id := "j1"; jobs.type := local;
            jobs.command := "echo Simulating make status...done.";
            jobs.status := running; jobs.started_at := 100%Z;
            jobs.finished_at := None |} ]) /\
  (map snd (emitted spawn_failure_state) =
     [ ev_job_started "j1" "echo Simulating make status...done.";
       ev_error "spawn ENOMEM" ] /\
   pending spawn_failure_state = [] /\
   children spawn_failure_state = [] /\
   forall tr,
     rows_of "j1" (run spawn_failure_state tr) =
       [ {| jobs.id := "j1"; jobs.type := local;
            jobs.command := "echo Simulating make status...done.";
            jobs.status := running; jobs.started_at := 100%Z;
            jobs.finished_at := None |} ]).
Proof.
  split.
  - split; [reflexivity|split; [reflexivity|split; [reflexivity|split; [reflexivity|]]]].
    intros tr.
    rewrite (proj2 (quiet_run "j1" tr _ quiet_after_launch_failure)); reflexivity.
  - split; [reflexivity|split; [reflexivity|split; [reflexivity|]]].
    intros tr.
    rewrite (proj2 (quiet_run "j1" tr _ quiet_after_spawn_failure)); reflexivity.
Qed.

(** C7.  ["constructor"] is not a key of the registry, yet [COMMANDS[key]]
    finds the function every object inherits: the guard of line 50 lets it
    through, line 55 throws before the [try], and no [error] event is sent. *)
Theorem inherited_key_sends_no_error (s : state) (sock : nat) (uuid : string) :
  own_property COMMANDS "constructor" = None /\
  emitted (step s (execute_command sock "constructor" uuid)) = emitted s /\
  delivered (step s (execute_command sock "constructor" uuid)) = delivered s /\
  db (step s (execute_command sock "constructor" uuid)) = db s /\
  unhandled (step s (execute_command sock "constructor" uuid)) =
    unhandled s ++ [TypeError_reading_join].
Proof. repeat split; reflexivity. Qed.

(** C8, as the server has it.  [GET /api/jobs] answers with the ten most
    recent jobs, whatever [limit] the request carries: the rows, each with
    its six columns, ordered by [started_at] descending, as many as there are
    jobs and never more than ten, none of them older than a job left out. *)
Theorem recent_jobs_are_the_ten_newest (limit : option nat) (rows : list jobs.row) :
  api_jobs limit None rows = res_json (SELECT_jobs rows) /\
  List.length (SELECT_jobs rows) = Nat.min 10 (List.length rows) /\
  StronglySorted newer_or_equal (SELECT_jobs rows) /\
  (exists rest,
     Permutation (SELECT_jobs rows ++ rest) rows /\
     Forall (fun y => Forall (fun x => newer_or_equal x y) (SELECT_jobs rows)) rest) /\
  (forall message, api_jobs limit (Some message) rows = res_status_500 message).
Proof.
  unfold SELECT_jobs; split; [reflexivity|].
  pose proof (order_by_perm rows) as Hp.
  pose proof (order_by_sorted rows) as Hs.
  destruct (sorted_firstn 10 _ Hs) as [S1 S2].
  split; [rewrite length_firstn, <- (Permutation_length Hp); reflexivity|].
  split; [exact S1|].
  split; [|reflexivity].
  exists (skipn 10 (ORDER_BY_started_at_DESC rows)); split; [|exact S2].
  rewrite firstn_skipn; apply Permutation_sym, Hp.
Qed.

(** C8 as stated fails: with fifteen jobs and [limit=5] the answer has ten
    rows. *)
Lemma limit_is_ignored :
  exists l, api_jobs (Some 5) None fifteen_jobs = res_json l /\ List.length l = 10.
Proof. eexists; split; reflexivity. Qed.

(** C9, as the server has it.  The finalize update is sent once.  When it
    fails the rejection is caught by nobody: no second update is sent, no
    [job-finished] event is sent, and the job's row stays [running] whatever
    happens afterwards. *)
Theorem finalize_failure_is_final (s : state) (n sock : nat) (id : string)
    (code : option Z) (rest : list suspended) (message : string) (tr : list input) :
  wf s ->
  take n (pending s) = Some (awaiting_update_job sock id code, rest) ->
  let s' := step s (query_failed n message) in
  pending s' = rest /\ db s' = db s /\ emitted s' = emitted s /\
  unhandled s' = unhandled s ++ [query_error message] /\
  count (is_update id) rest = 0 /\
  rows_of id (run s' tr) = rows_of id s /\
  Forall (fun r => jobs.status r = running) (rows_of id (run s' tr)) /\
  count (is_finished id) (emitted (run s' tr)) = 0.
Proof.
  intros Hwf Ht; cbv zeta.
  pose proof (take_count (is_update id) _ _ _ _ Ht) as Hu; cbn [is_update] in Hu.
  rewrite String.eqb_refl in Hu.
  destruct (Hwf id) as [K1 K2 _ _ _ _ _].
  pose proof (wf_step s (query_failed n message) Hwf) as Hwf'.
  rewrite (step_query_failed _ _ _ _ _ Ht) in *; cbn [resume_rejected] in *.
  set (s' := reject (query_error message) (set_pending rest s)) in *.
  assert (Q : quiet id s') by (unfold quiet; subst s'; cbn; lia).
  assert (Hterm : count (is_terminal_row id) (tbl_jobs (db s')) = 0)
    by (subst s'; cbn; lia).
  destruct (quiet_running_forever id s' tr Hwf' Q Hterm) as (R1 & R2 & R3).
  repeat split; try reflexivity; try assumption; lia.
Qed.

Lemma finalize_failure_is_final_witness :
  Forall (fun r => jobs.status r = running)
    (rows_of "j1" (run (step (run init closed_job_trace)
                             (query_failed 0 "timeout exceeded"))
                       [data 0 stdout "late"; close 0 (Some 0%Z); disconnect 0])).
Proof.
  exact (proj1 (proj2 (proj2 (proj2 (proj2 (proj2 (proj2
    (finalize_failure_is_final (run init closed_job_trace) 0 0 "j1" (Some 0%Z) []
       "timeout exceeded" [data 0 stdout "late"; close 0 (Some 0%Z); disconnect 0]
       (wf_run closed_job_trace init wf_init) eq_refl)))))))).
Defined.

(** C9 as stated fails: the child exits with code 0, the one finalize update
    fails, nothing is pending afterwards, and the job is [running] with a
    null [finished_at] in every later state. *)
Lemma failed_finalize_not_retried :
  pending failed_finalize_state = [] /\
  map snd (emitted failed_finalize_state) =
    [ev_job_started "j1" "echo Simulating make status...done."] /\
  forall tr,
    rows_of "j1" (run failed_finalize_state tr) =
      [ {| jobs.id := "j1"; jobs.type := local;
           jobs.command := "echo Simulating make status...done.";
           jobs.status := running; jobs.started_at := 100%Z;
           jobs.finished_at := None |} ].
Proof.
  split; [reflexivity|split; [reflexivity|]].
  intros tr.
  rewrite (proj2 (quiet_run "j1" tr _ quiet_after_failed_finalize)); reflexivity.
Qed.

(** C10. When the insert of a job fails, whether the query is lost or the
    store refuses it, the handler sends exactly one [error] event with the
    failure message to the socket that asked, spawns no child and changes no
    table; with the callback gone from the pending queries nothing is left to
    send [job-started], [job-log] or [job-finished] for the request. *)
Theorem insert_failure_is_atomic (s : state) (n sock : nat) (id : string)
    (c : command) (rest : list suspended) :
  take n (pending s) = Some (awaiting_insert_job sock id c, rest) ->
  (forall message,
     let s' := step s (query_failed n message) in
     emitted s' = emitted s ++ [(sock, ev_error message)] /\
     children s' = children s /\ db s' = db s /\ pending s' = rest) /\
  (forall now sp,
     has_job id (tbl_jobs (db s)) = true ->
     exists message,
       let s' := step s (query_executed n now sp) in
       emitted s' = emitted s ++ [(sock, ev_error message)] /\
       children s' = children s /\ db s' = db s /\ pending s' = rest).
Proof.
  intros Ht; split.
  - intros message; cbv zeta; rewrite (step_query_failed _ _ _ _ _ Ht).
    cbn; auto.
  - intros now sp Hj; eexists; cbv zeta.
    erewrite step_query_refused;
      [|exact Ht|cbn [stmt_of exec_sql]; rewrite Hj; reflexivity].
    cbn; auto.
Qed.

Lemma insert_failure_is_atomic_witness :
  let s := run init [execute_command 7 "docker-ps" "j1"] in
  let s' := step s (query_failed 0 "connection terminated unexpectedly") in
  emitted s' = [(7, ev_error "connection terminated unexpectedly")] /\
  children s' = [] /\ db s' = db init /\ pending s' = [].
Proof.
  exact (proj1 (insert_failure_is_atomic
                  (run init [execute_command 7 "docker-ps" "j1"]) 0 7 "j1" _ []
                  eq_refl) "connection terminated unexpectedly").
Defined.

(** * Further properties of the server and of the page *)

(** ** What a turn of the loop does to the store *)

Lemma step_db s i :
  db (step s i) = db s \/
  exists n a rest now,
    take n (pending s) = Some (a, rest) /\
    exec_sql (stmt_of a) now (db s) = inr (db (step s i)).
Proof.
  destruct i as [sock key uuid|n now sp|n m|pid st chunk|pid code|sock]; unfold step.
  - left; destruct (lookup key); reflexivity.
  - destruct (take n (pending s)) as [[a rest]|] eqn:Et; [|left; reflexivity].
    cbv zeta; cbn [db set_pending].
    destruct (exec_sql (stmt_of a) now (db s)) as [m|d] eqn:E.
    + left; rewrite db_resume_rejected; reflexivity.
    + right; exists n, a, rest, now; split; [exact Et|].
      rewrite db_resume; exact E.
  - destruct (take n (pending s)) as [[a rest]|]; [|left; reflexivity].
    left; rewrite db_resume_rejected; reflexivity.
  - left; destruct (nth_error (children s) pid) as [c|]; [|reflexivity].
    destruct (closed c); reflexivity.
  - left; destruct (nth_error (children s) pid) as [c|]; [|reflexivity].
    destruct (closed c); reflexivity.
  - left; reflexivity.
Qed.

Lemma has_job_In id rows :
  has_job id rows = true <-> In id (map jobs.id rows).
Proof.
  unfold has_job; rewrite existsb_exists, in_map_iff; split.
  - intros (r & Hr & E); apply String.eqb_eq in E; exists r; auto.
  - intros (r & E & Hr); exists r; split; [exact Hr|apply String.eqb_eq, E].
Qed.

Lemma map_id_update st now id rows :
  map jobs.id (map (set_status st now id) rows) = map jobs.id rows.
Proof.
  rewrite map_map; apply map_ext; intros r; apply set_status_id.
Qed.

Lemma has_job_update st now id id' rows :
  has_job id' (map (set_status st now id) rows) = has_job id' rows.
Proof.
  unfold has_job; induction rows as [|r rows IH]; [reflexivity|].
  cbn [map existsb]; rewrite IH, set_status_id; reflexivity.
Qed.

Lemma exec_sql_keeps_key a now d d' :
  exec_sql (stmt_of a) now d = inr d' ->
  NoDup (map jobs.id (tbl_jobs d)) -> NoDup (map jobs.id (tbl_jobs d')).
Proof.
  destruct a as [sock id c|sock id st chunk|sock id code]; cbn [stmt_of exec_sql].
  - destruct (has_job id (tbl_jobs d)) eqn:Hj; [discriminate|].
    intros H Hn; inversion H; subst; cbn [tbl_jobs].
    rewrite map_app; cbn [map jobs.id].
    apply NoDup_app; repeat split; [exact Hn|repeat constructor; intros []|].
    intros x Hx [<-|[]].
    apply has_job_In in Hx; congruence.
  - destruct (has_job id (tbl_jobs d)); [|discriminate].
    intros H Hn; inversion H; subst; exact Hn.
  - intros H Hn; inversion H; subst; cbn [tbl_jobs]; rewrite map_id_update; exact Hn.
Qed.

Lemma exec_sql_keeps_owner a now d d' :
  exec_sql (stmt_of a) now d = inr d' -> logs_owned d -> logs_owned d'.
Proof.
  unfold logs_owned.
  destruct a as [sock id c|sock id st chunk|sock id code]; cbn [stmt_of exec_sql].
  - destruct (has_job id (tbl_jobs d)) eqn:Hj; [discriminate|].
    intros H Ho; inversion H; subst; cbn [tbl_jobs tbl_job_logs].
    revert Ho; apply Forall_impl; intros l Hl.
    unfold has_job in *; rewrite existsb_app, Hl; reflexivity.
  - destruct (has_job id (tbl_jobs d)) eqn:Hj; [|discriminate].
    intros H Ho; inversion H; subst; cbn [tbl_jobs tbl_job_logs].
    apply Forall_app; split; [exact Ho|].
    constructor; [exact Hj|constructor].
  - intros H Ho; inversion H; subst; cbn [tbl_jobs tbl_job_logs].
    revert Ho; apply Forall_impl; intros l Hl; rewrite has_job_update; exact Hl.
Qed.

Lemma fixed_columns_update st now id r :
  fixed_columns (set_status st now id r) = fixed_columns r.
Proof. unfold set_status; destruct (String.eqb (jobs.id r) id); reflexivity. Qed.

Lemma exec_sql_appends a now d d' :
  exec_sql (stmt_of a) now d = inr d' ->
  (exists more, map fixed_columns (tbl_jobs d') = map fixed_columns (tbl_jobs d) ++ more) /\
  (exists more, tbl_job_logs d' = tbl_job_logs d ++ more).
Proof.
  destruct a as [sock id c|sock id st chunk|sock id code]; cbn [stmt_of exec_sql].
  - destruct (has_job id (tbl_jobs d)); [discriminate|].
    intros H; inversion H; subst; cbn [tbl_jobs tbl_job_logs]; split.
    + rewrite map_app; eexists; reflexivity.
    + exists []; rewrite app_nil_r; reflexivity.
  - destruct (has_job id (tbl_jobs d)); [|discriminate].
    intros H; inversion H; subst; cbn [tbl_jobs tbl_job_logs]; split.
    + exists []; rewrite app_nil_r; reflexivity.
    + eexists; reflexivity.
  - intros H; inversion H; subst; cbn [tbl_jobs tbl_job_logs]; split.
    + exists []; rewrite app_nil_r, map_map; apply map_ext, fixed_columns_update.
    + exists []; rewrite app_nil_r; reflexivity.
Qed.

(** X3. The primary key of [jobs] holds in every state the server reaches:
    no two rows share an id, whatever ids [uuidv4] returns. *)
Theorem job_ids_stay_unique (s : state) (tr : list input) :
  NoDup (map jobs.id (tbl_jobs (db s))) ->
  NoDup (map jobs.id (tbl_jobs (db (run s tr)))).
Proof.
  revert s; induction tr as [|i tr IH]; intros s H; [exact H|].
  cbn [run fold_left]; apply IH.
  destruct (step_db s i) as [->|(n & a & rest & now & _ & E)]; [exact H|].
  exact (exec_sql_keeps_key _ _ _ _ E H).
Qed.

(** X4. Every row of [job_logs] belongs to a job of the [jobs] table, in
    every state the server reaches. *)
Theorem logs_stay_owned (s : state) (tr : list input) :
  logs_owned (db s) -> logs_owned (db (run s tr)).
Proof.
  revert s; induction tr as [|i tr IH]; intros s H; [exact H|].
  cbn [run fold_left]; apply IH.
  destruct (step_db s i) as [->|(n & a & rest & now & _ & E)]; [exact H|].
  exact (exec_sql_keeps_owner _ _ _ _ E H).
Qed.

(** X5. The server only ever adds to its tables: along a run the rows of
    [job_logs] stay where they are, unchanged, with new ones after them, and
    the rows of [jobs] keep their position and their id, type, command and
    [started_at]. *)
Theorem tables_only_grow (s : state) (tr : list input) :
  (exists more,
     map fixed_columns (tbl_jobs (db (run s tr))) =
     map fixed_columns (tbl_jobs (db s)) ++ more) /\
  (exists more, tbl_job_logs (db (run s tr)) = tbl_job_logs (db s) ++ more).
Proof.
  revert s; induction tr as [|i tr IH]; intros s.
  - split; exists []; rewrite app_nil_r; reflexivity.
  - cbn [run fold_left]; destruct (IH (step s i)) as [[m1 H1] [m2 H2]].
    fold (run (step s i) tr) in *.
    destruct (step_db s i) as [E|(n & a & rest & now & _ & E)].
    + rewrite E in *; split; eauto.
    + destruct (exec_sql_appends _ _ _ _ E) as [[k1 K1] [k2 K2]]; split.
      * exists (k1 ++ m1); rewrite H1, K1, app_assoc; reflexivity.
      * exists (k2 ++ m2); rewrite H2, K2, app_assoc; reflexivity.
Qed.

Lemma job_ids_stay_unique_witness :
  NoDup (map jobs.id (tbl_jobs (db (run init
    [ execute_command 0 "vm-status" "j1"; execute_command 1 "vm-logs" "j1";
      query_executed 0 100%Z spawned; query_executed 0 101%Z spawned ])))).
Proof. exact (job_ids_stay_unique init _ (NoDup_nil _)). Defined.

Lemma logs_stay_owned_witness : logs_owned (db (run init one_job_trace)).
Proof. exact (logs_stay_owned init one_job_trace (Forall_nil _)). Defined.




(** ** The events agree with the table *)

Lemma job_commands_update st now id rows :
  job_commands (map (set_status st now id) rows) = job_commands rows.
Proof.
  unfold job_commands; rewrite map_map; apply map_ext; intros r.
  unfold set_status; destruct (String.eqb (jobs.id r) id); reflexivity.
Qed.

Lemma emitted_resume_insert sk id c sp s :
  exists tail,
    emitted (resume (awaiting_insert_job sk id c) sp s) =
      emitted s ++ (sk, ev_job_started id (cmdStr c)) :: tail /\
    (tail = [] \/ exists m, tail = [(sk, ev_error m)]).
Proof.
  destruct sp as [|m|m]; cbn.
  - exists []; auto.
  - exists [(sk, ev_error m)]; rewrite <- app_assoc; split; [reflexivity|eauto].
  - exists []; auto.
Qed.

Lemma started_recorded_step s i : started_recorded s -> started_recorded (step s i).
Proof.
  intros H.
  assert (Hsame : forall s', job_commands (tbl_jobs (db s')) = job_commands (tbl_jobs (db s)) ->
                    emitted s' = emitted s -> started_recorded s').
  { intros s' Hd He sock id command Hin; rewrite Hd; rewrite He in Hin; eapply H, Hin. }
  assert (Hone : forall s' e, job_commands (tbl_jobs (db s')) = job_commands (tbl_jobs (db s)) ->
                   emitted s' = emitted s ++ [e] ->
                   (forall id command, snd e <> ev_job_started id command) ->
                   started_recorded s').
  { intros s' e Hd He Hne sock id command Hin; rewrite Hd; rewrite He in Hin.
    apply in_app_or in Hin; destruct Hin as [Hin|[E|[]]]; [eapply H, Hin|].
    subst e; exfalso; exact (Hne id command eq_refl). }
  destruct i as [sock key uuid|n now sp|n m|pid st chunk|pid code|sock]; unfold step.
  - destruct (lookup key); [apply Hsame; reflexivity|apply Hsame; reflexivity|].
    eapply Hone; [reflexivity|reflexivity|cbn; congruence].
  - destruct (take n (pending s)) as [[a rest]|] eqn:Et; [|exact H].
    cbv zeta; cbn [db set_pending].
    destruct a as [sk id c|sk id st chunk|sk id code]; cbn [stmt_of exec_sql].
    + destruct (has_job id (tbl_jobs (db s))).
      * cbn [resume_rejected]; eapply Hone; [reflexivity|reflexivity|cbn; congruence].
      * intros sock id' command Hin; rewrite db_resume; cbn [db set_db tbl_jobs].
        destruct (emitted_resume_insert sk id c sp
                    (set_db {| tbl_jobs := tbl_jobs (db s) ++
                                 [ {| jobs.id := id; jobs.type := type c;
                                      jobs.command := cmdStr c; jobs.status := running;
                                      jobs.started_at := now; jobs.finished_at := None |} ];
                               tbl_job_logs := tbl_job_logs (db s) |}
                            (set_pending rest s))) as (tail & E & Ht).
        rewrite E in Hin; cbn [emitted set_db set_pending] in Hin.
        unfold job_commands; rewrite map_app; apply in_or_app.
        apply in_app_or in Hin; destruct Hin as [Hin|[E'|Hin]].
        -- left; exact (H _ _ _ Hin).
        -- right; inversion E'; subst; left; reflexivity.
        -- destruct Ht as [->|[m ->]]; [destruct Hin|].
           destruct Hin as [E'|[]]; discriminate.
    + destruct (has_job id (tbl_jobs (db s))); cbn [resume_rejected resume].
      * eapply Hone; [reflexivity|reflexivity|cbn; congruence].
      * apply Hsame; reflexivity.
    + cbn [resume]; eapply Hone; [|reflexivity|cbn; congruence].
      cbn; apply job_commands_update.
  - destruct (take n (pending s)) as [[a rest]|] eqn:Et; [|exact H].
    destruct a; cbn [resume_rejected];
      [eapply Hone; [reflexivity|reflexivity|cbn; congruence]
      |apply Hsame; reflexivity|apply Hsame; reflexivity].
  - destruct (nth_error (children s) pid) as [c|]; [|exact H].
    destruct (closed c); [exact H|apply Hsame; reflexivity].
  - destruct (nth_error (children s) pid) as [c|]; [|exact H].
    destruct (closed c); [exact H|apply Hsame; reflexivity].
  - apply Hsame; reflexivity.
Qed.

(** X8. Whenever a client has been told [job-started] for an id and a
    command, the [jobs] table has a row with that id and that command, in
    every later state as well. *)
Theorem job_started_is_recorded (s : state) (tr : list input)
    (sock : nat) (id command : string) :
  started_recorded s ->
  In (sock, ev_job_started id command) (emitted (run s tr)) ->
  exists r, In r (tbl_jobs (db (run s tr))) /\
            jobs.id r = id /\ jobs.command r = command.
Proof.
  intros H Hin.
  assert (Hrun : started_recorded (run s tr)).
  { clear Hin; revert s H; induction tr as [|i tr IH]; intros s H; [exact H|].
    cbn [run fold_left]; apply IH, started_recorded_step, H. }
  apply Hrun in Hin; unfold job_commands in Hin; apply in_map_iff in Hin.
  destruct Hin as (r & E & Hr); inversion E; subst; exists r; auto.
Qed.

Lemma job_started_is_recorded_witness :
  exists r, In r (tbl_jobs (db (run init racing_trace))) /\
            jobs.id r = "j1" /\ jobs.command r = "echo Simulating make status...done.".
Proof.
  refine (job_started_is_recorded init racing_trace 0 "j1" _ _ _).
  - intros sock id command [].
  - left; reflexivity.
Defined.

Lemma length_rows_of id s : List.length (rows_of id s) = count (is_row id) (tbl_jobs (db s)).
Proof. reflexivity. Qed.

Lemma finished_recorded_step s i :
  wf s -> finished_recorded s -> finished_recorded (step s i).
Proof.
  intros Hwf H.
  assert (Hold : forall sock id st code,
            In (sock, ev_job_finished id st code) (emitted s) ->
            st = status_of_code code /\
            rows_of id (step s i) <> [] /\
            Forall (fun r => jobs.status r = st /\ jobs.finished_at r <> None)
                   (rows_of id (step s i))).
  { intros sock id st code Hin; destruct (H _ _ _ _ Hin) as (E & Hne & Hall).
    destruct (Hwf id) as [K1 K2 _ K4 _ _ _].
    assert (Hf : 1 <= count (is_finished id) (emitted s)).
    { clear - Hin; induction (emitted s) as [|e l IH]; [destruct Hin|].
      rewrite count_cons; destruct Hin as [->|Hin]; [|specialize (IH Hin); lia].
      rewrite is_finished_finished, String.eqb_refl; lia. }
    assert (Q : quiet id s) by (unfold quiet; lia).
    destruct (quiet_step id s i Q) as [_ Hrows]; rewrite Hrows; auto. }
  assert (Hsame : forall s', step s i = s' -> emitted s' = emitted s -> finished_recorded s').
  { intros s' <- He sock id st code Hin; rewrite He in Hin; eapply Hold, Hin. }
  assert (Hone : forall s' e, step s i = s' -> emitted s' = emitted s ++ [e] ->
                   (forall id st code, snd e <> ev_job_finished id st code) ->
                   finished_recorded s').
  { intros s' e <- He Hne sock id st code Hin; rewrite He in Hin.
    apply in_app_or in Hin; destruct Hin as [Hin|[E|[]]]; [eapply Hold, Hin|].
    subst e; exfalso; exact (Hne id st code eq_refl). }
  destruct i as [sock key uuid|n now sp|n m|pid st chunk|pid code|sock].
  - destruct (lookup key) eqn:Ek.
    + apply Hsame; [reflexivity|unfold step; rewrite Ek; reflexivity].
    + apply Hsame; [reflexivity|unfold step; rewrite Ek; reflexivity].
    + eapply Hone; [reflexivity|unfold step; rewrite Ek; reflexivity|cbn; congruence].
  - destruct (take n (pending s)) as [[a rest]|] eqn:Et;
      [|apply Hsame; [reflexivity|unfold step; rewrite Et; reflexivity]].
    destruct (exec_sql (stmt_of a) now (db s)) as [m|d] eqn:Ex.
    + rewrite (step_query_refused _ _ _ _ _ _ _ Et Ex) in *.
      destruct a; cbn [resume_rejected] in *;
        [eapply Hone; [reflexivity|reflexivity|cbn; congruence]
        |apply Hsame; reflexivity|apply Hsame; reflexivity].
    + rewrite (step_query_executed _ _ _ _ _ _ _ Et Ex) in *.
      destruct a as [sk id c|sk id st chunk|sk id code].
      * intros sock id' st code Hin.
        destruct (emitted_resume_insert sk id c sp (set_db d (set_pending rest s)))
          as (tail & E & Ht).
        rewrite E in Hin; cbn [emitted set_db set_pending] in Hin.
        apply in_app_or in Hin; destruct Hin as [Hin|[E'|Hin]];
          [eapply Hold, Hin|discriminate|].
        destruct Ht as [->|[m ->]]; [destruct Hin|].
        destruct Hin as [E'|[]]; discriminate.
      * cbn [resume] in *; eapply Hone; [reflexivity|reflexivity|cbn; congruence].
      * cbn [resume] in *; intros sock id' st code' Hin.
        cbn [emitted emit set_db set_pending] in Hin.
        apply in_app_or in Hin; destruct Hin as [Hin|[E'|[]]]; [eapply Hold, Hin|].
        inversion E'; subst; clear E'.
        cbn [stmt_of exec_sql] in Ex; inversion Ex; subst; clear Ex.
        unfold rows_of; cbn [db emit set_db set_pending tbl_jobs].
        rewrite filter_rows_update.
        destruct (Hwf id') as [K1 K2 _ _ _ _ _].
        pose proof (take_count (is_update id') _ _ _ _ Et) as Hu; cbn [is_update] in Hu.
        rewrite String.eqb_refl in Hu.
        split; [reflexivity|split].
        -- intros E; apply (f_equal (@List.length _)) in E.
           rewrite length_map in E; unfold count in *; cbn in E; lia.
        -- apply Forall_map, Forall_forall; intros r Hr.
           apply filter_In in Hr; destruct Hr as [_ Hr]; rewrite is_row_eq in Hr.
           unfold set_status; rewrite Hr; cbn; split; [reflexivity|discriminate].
  - destruct (take n (pending s)) as [[a rest]|] eqn:Et;
      [|apply Hsame; [reflexivity|unfold step; rewrite Et; reflexivity]].
    rewrite (step_query_failed _ _ _ _ _ Et) in *.
    destruct a; cbn [resume_rejected] in *;
      [eapply Hone; [reflexivity|reflexivity|cbn; congruence]
      |apply Hsame; reflexivity|apply Hsame; reflexivity].
  - apply Hsame; [reflexivity|]; unfold step.
    destruct (nth_error (children s) pid) as [c|]; [|reflexivity].
    destruct (closed c); reflexivity.
  - apply Hsame; [reflexivity|]; unfold step.
    destruct (nth_error (children s) pid) as [c|]; [|reflexivity].
    destruct (closed c); reflexivity.
  - apply Hsame; reflexivity.
Qed.

(** X9. Whenever a client has been told [job-finished] for a job, the status
    in the event is the one the exit code decides, and the job's row has that
    status and a non-null [finished_at], then and in every later state: a
    client that reads the history after the event sees the job finished. *)
Theorem job_finished_is_recorded (s : state) (tr : list input)
    (sock : nat) (id : string) (st : job_status) (code : option Z) :
  wf s -> finished_recorded s ->
  In (sock, ev_job_finished id st code) (emitted (run s tr)) ->
  st = status_of_code code /\
  rows_of id (run s tr) <> [] /\
  Forall (fun r => jobs.status r = st /\ jobs.finished_at r <> None)
         (rows_of id (run s tr)).
Proof.
  intros Hwf H Hin.
  assert (Hrun : finished_recorded (run s tr)).
  { clear Hin; revert s Hwf H; induction tr as [|i tr IH]; intros s Hwf H; [exact H|].
    cbn [run fold_left]; apply IH; [apply wf_step, Hwf|apply finished_recorded_step; assumption]. }
  exact (Hrun _ _ _ _ Hin).
Qed.

Lemma job_finished_is_recorded_witness :
  rows_of "j1" (run init racing_trace) <> [] /\
  Forall (fun r => jobs.status r = success /\ jobs.finished_at r <> None)
         (rows_of "j1" (run init racing_trace)).
Proof.
  refine (proj2 (job_finished_is_recorded init racing_trace 0 "j1" success (Some 0%Z)
                   wf_init _ _)).
  - intros sock id st code [].
  - right; left; reflexivity.
Defined.

(** ** One child and one socket for a job *)

Lemma count_In {A : Type} (p : A -> bool) (l : list A) (x : A) :
  In x l -> p x = true -> 1 <= count p l.
Proof.
  induction l as [|a l IH]; intros Hin Hp; [destruct Hin|].
  rewrite count_cons; destruct Hin as [->|Hin]; [rewrite Hp; lia|].
  specialize (IH Hin Hp); lia.
Qed.

Lemma take_In {A : Type} (n : nat) (l : list A) (a : A) (rest : list A) :
  take n l = Some (a, rest) -> In a l /\ forall x, In x rest -> In x l.
Proof.
  revert n a rest; induction l as [|y l IH]; intros n a rest H; [destruct n; discriminate|].
  destruct n as [|n]; cbn [take] in H.
  - inversion H; subst; split; [left; reflexivity|intros x Hx; right; exact Hx].
  - destruct (take n l) as [[z r']|] eqn:E; [|discriminate].
    inversion H; subst; destruct (IH _ _ _ E) as [Ha Hr]; split; [right; exact Ha|].
    intros x [->|Hx]; [left; reflexivity|right; apply Hr, Hx].
Qed.

Lemma mark_closed_In pid l c :
  In c (mark_closed pid l) ->
  exists c0, In c0 l /\ job c0 = job c /\ owner c0 = owner c.
Proof.
  revert pid; induction l as [|x l IH]; intros pid Hin; [destruct pid; destruct Hin|].
  destruct pid as [|pid]; cbn [mark_closed] in Hin.
  - destruct Hin as [<-|Hin]; [exists x; cbn; auto|exists c; cbn; auto].
  - destruct Hin as [<-|Hin]; [exists x; cbn; auto|].
    destruct (IH _ Hin) as (c0 & H0 & E); exists c0; cbn; auto.
Qed.

Lemma mark_closed_children id pid l :
  count (is_child id) (mark_closed pid l) = count (is_child id) l.
Proof.
  revert pid; induction l as [|x l IH]; intros pid; [destruct pid; reflexivity|].
  destruct pid as [|pid]; cbn [mark_closed]; rewrite !count_cons; [reflexivity|].
  rewrite IH; reflexivity.
Qed.

Lemma is_child_eq id c : is_child id c = String.eqb (job c) id.
Proof. reflexivity. Qed.

Lemma children_counted_step s i : children_counted s -> children_counted (step s i).
Proof.
  intros H id; specialize (H id).
  destruct i as [sock key uuid|n now sp|n m|pid st chunk|pid code|sock]; unfold step.
  - destruct (lookup key); exact H.
  - destruct (take n (pending s)) as [[a rest]|] eqn:Et; [|exact H].
    cbv zeta; cbn [db set_pending].
    destruct a as [sk id0 c|sk id0 st chunk|sk id0 code]; cbn [stmt_of exec_sql].
    + destruct (has_job id0 (tbl_jobs (db s))); cbn [resume_rejected resume]; [exact H|].
      destruct sp; counts; rewrite ?is_child_eq; cbn [job]; destruct (String.eqb id0 id); lia.
    + destruct (has_job id0 (tbl_jobs (db s))); exact H.
    + cbn [resume]; counts; exact H.
  - destruct (take n (pending s)) as [[a rest]|] eqn:Et; [|exact H].
    destruct a; exact H.
  - destruct (nth_error (children s) pid) as [c|]; [|exact H].
    destruct (closed c); exact H.
  - destruct (nth_error (children s) pid) as [c|]; [|exact H].
    destruct (closed c); [exact H|].
    cbn [db children suspend set_children]; rewrite mark_closed_children; exact H.
  - exact H.
Qed.

Lemma children_counted_run tr : forall s, children_counted s -> children_counted (run s tr).
Proof.
  induction tr as [|i tr IH]; intros s H; [exact H|].
  cbn [run fold_left]; apply IH, children_counted_step, H.
Qed.

(** X10. The server starts at most one process for a job, and none for a job
    that has no row: whatever the interleaving, the children spawned for one
    job id number at most the rows with this id, which is at most one. *)
Theorem one_child_per_job (s : state) (tr : list input) (id : string) :
  wf s -> children_counted s ->
  count (is_child id) (children (run s tr))
    <= count (is_row id) (tbl_jobs (db (run s tr))) /\
  count (is_row id) (tbl_jobs (db (run s tr))) <= 1.
Proof.
  intros Hwf Hc; split; [apply children_counted_run, Hc|].
  destruct (wf_run tr s Hwf id) as [K1 _ _ _ _ _ _]; exact K1.
Qed.

Lemma children_counted_init : children_counted init.
Proof. intros id; cbn; rewrite !count_nil; lia. Qed.

Lemma one_child_per_job_witness :
  count (is_child "j1") (children (run init
    [ execute_command 0 "vm-status" "j1"; execute_command 1 "vm-logs" "j1";
      query_executed 0 100%Z spawned; query_executed 0 101%Z spawned ])) <= 1.
Proof.
  pose proof (one_child_per_job init
    [ execute_command 0 "vm-status" "j1"; execute_command 1 "vm-logs" "j1";
      query_executed 0 100%Z spawned; query_executed 0 101%Z spawned ] "j1"
    wf_init children_counted_init) as [H1 H2].
  exact (Nat.le_trans _ _ _ H1 H2).
Defined.

Lemma unserved s id :
  wf s -> children_counted s ->
  has_job id (tbl_jobs (db s)) = false ->
  forall k, ~ serves id s k.
Proof.
  intros Hwf Hc Hj k Hs.
  rewrite has_job_count in Hj; apply negb_false_iff, Nat.eqb_eq in Hj.
  destruct (Hwf id) as [K1 K2 _ _ K5 K6 _]; specialize (Hc id).
  destruct Hs as [(e & Hin & He)|[(c & Hin & Hjob & _)|(a & Hin & Hw)]].
  - pose proof (count_In (of_job id) _ _ Hin He); lia.
  - assert (Hp : is_child id c = true) by (rewrite is_child_eq; apply String.eqb_eq, Hjob).
    pose proof (count_In (is_child id) _ _ Hin Hp); lia.
  - destruct a as [sk i c|sk i st chunk|sk i code]; cbn in Hw; [destruct Hw| |];
      destruct Hw as [-> _].
    + assert (Hp : is_log id (awaiting_insert_log sk id st chunk) = true)
        by (cbn; apply String.eqb_refl).
      pose proof (count_In (is_log id) _ _ Hin Hp); lia.
    + assert (Hp : is_update id (awaiting_update_job sk id code) = true)
        by (cbn; apply String.eqb_refl).
      pose proof (count_In (is_update id) _ _ Hin Hp); lia.
Qed.

(** Who is served after a turn was served before it, unless the turn is the
    successful insert of the job, which serves the socket that asked. *)
Lemma serves_step s i id k :
  wf s -> children_counted s ->
  serves id (step s i) k ->
  serves id s k \/
  ((forall k0, ~ serves id s k0) /\
   exists n now sp c rest,
     i = query_executed n now sp /\
     take n (pending s) = Some (awaiting_insert_job k id c, rest)).
Proof.
  intros Hwf Hc.
  assert (Hsub : forall s',
            (forall e, In (k, e) (emitted s') -> of_job id (k, e) = true ->
                       serves id s k) ->
            (forall c, In c (children s') -> job c = id -> owner c = k -> serves id s k) ->
            (forall a, In a (pending s') -> waits_on id k a -> serves id s k) ->
            serves id s' k -> serves id s k).
  { intros s' He Hch Hp [(e & Hin & Hj)|[(c & Hin & Hj & Ho)|(a & Hin & Hw)]]; eauto. }
  assert (Hev : forall e, In (k, e) (emitted s) -> of_job id (k, e) = true -> serves id s k)
    by (intros e Hin Hj; left; eauto).
  assert (Hchild : forall c, In c (children s) -> job c = id -> owner c = k -> serves id s k)
    by (intros c Hin Hj Ho; right; left; eauto).
  assert (Hpend : forall a, In a (pending s) -> waits_on id k a -> serves id s k)
    by (intros a Hin Hw; right; right; eauto).
  assert (Herr : forall sk m e, In (k, e) (emitted s ++ [(sk, ev_error m)]) ->
                   of_job id (k, e) = true -> serves id s k).
  { intros sk m e Hin Hj; apply in_app_or in Hin; destruct Hin as [Hin|[E|[]]]; [eauto|].
    inversion E; subst; discriminate. }
  destruct i as [sock key uuid|n now sp|n m|pid st chunk|pid code|sock].
  - intros Hs; left; revert Hs; unfold step; destruct (lookup key); apply Hsub; cbn; eauto.
    intros a Hin Hw; apply in_app_or in Hin; destruct Hin as [Hin|[<-|[]]]; [eauto|destruct Hw].
  - destruct (take n (pending s)) as [[a rest]|] eqn:Et;
      [|unfold step; rewrite Et; auto].
    destruct (take_In _ _ _ _ Et) as [Ha Hrest].
    destruct (exec_sql (stmt_of a) now (db s)) as [m|d] eqn:Ex.
    + rewrite (step_query_refused _ _ _ _ _ _ _ Et Ex).
      intros Hs; left; revert Hs; destruct a; apply Hsub; cbn; eauto.
    + rewrite (step_query_executed _ _ _ _ _ _ _ Et Ex).
      destruct a as [sk id0 c|sk id0 st chunk|sk id0 code].
      * cbn [stmt_of exec_sql] in Ex.
        destruct (has_job id0 (tbl_jobs (db s))) eqn:Hj; [discriminate|].
        destruct (String.eqb id0 id) eqn:Eid.
        -- apply String.eqb_eq in Eid; subst id0.
           intros Hs.
           assert (Hk : k = sk).
           { destruct Hs as [(e & Hin & Hjb)|[(c0 & Hin & Hjb & Ho)|(a & Hin & Hw)]].
             - destruct (emitted_resume_insert sk id c sp (set_db d (set_pending rest s)))
                 as (tail & E & Ht).
               rewrite E in Hin; cbn [emitted set_db set_pending] in Hin.
               apply in_app_or in Hin; destruct Hin as [Hin|[E'|Hin]].
               + exfalso; exact (unserved s id Hwf Hc Hj k (Hev _ Hin Hjb)).
               + inversion E'; reflexivity.
               + destruct Ht as [->|[m ->]]; [destruct Hin|].
                 destruct Hin as [E'|[]]; inversion E'; subst; discriminate.
             - destruct sp; cbn in Hin.
               + apply in_app_or in Hin; destruct Hin as [Hin|[<-|[]]]; [|exact (eq_sym Ho)].
                 exfalso; exact (unserved s id Hwf Hc Hj k (Hchild _ Hin Hjb Ho)).
               + exfalso; exact (unserved s id Hwf Hc Hj k (Hchild _ Hin Hjb Ho)).
               + exfalso; exact (unserved s id Hwf Hc Hj k (Hchild _ Hin Hjb Ho)).
             - assert (Hin' : In a (pending s)) by (destruct sp; cbn in Hin; auto).
               exfalso; exact (unserved s id Hwf Hc Hj k (Hpend _ Hin' Hw)). }
           subst k; right; split; [exact (unserved s id Hwf Hc Hj)|].
           exists n, now, sp, c, rest; auto.
        -- intros Hs; left; revert Hs; apply Hsub.
           ++ intros e Hin Hjb.
              destruct (emitted_resume_insert sk id0 c sp (set_db d (set_pending rest s)))
                as (tail & E & Ht).
              rewrite E in Hin; cbn [emitted set_db set_pending] in Hin.
              apply in_app_or in Hin; destruct Hin as [Hin|[E'|Hin]]; [eauto| |].
              ** inversion E'; subst; cbn in Hjb; congruence.
              ** destruct Ht as [->|[m ->]]; [destruct Hin|].
                 destruct Hin as [E'|[]]; inversion E'; subst; discriminate.
           ++ intros c0 Hin Hjb Ho; destruct sp; cbn in Hin; [|eauto|eauto].
              apply in_app_or in Hin; destruct Hin as [Hin|[<-|[]]]; [eauto|].
              cbn in Hjb; apply String.eqb_neq in Eid; congruence.
           ++ intros a Hin Hw; destruct sp; cbn in Hin; eauto.
      * intros Hs; left; revert Hs; apply Hsub; cbn; eauto.
        intros e Hin Hjb; apply in_app_or in Hin; destruct Hin as [Hin|[E|[]]]; [eauto|].
        inversion E; subst; cbn in Hjb; apply String.eqb_eq in Hjb.
        apply (Hpend _ Ha); cbn; auto.
      * intros Hs; left; revert Hs; apply Hsub; cbn; eauto.
        intros e Hin Hjb; apply in_app_or in Hin; destruct Hin as [Hin|[E|[]]]; [eauto|].
        inversion E; subst; cbn in Hjb; apply String.eqb_eq in Hjb.
        apply (Hpend _ Ha); cbn; auto.
  - destruct (take n (pending s)) as [[a rest]|] eqn:Et;
      [|unfold step; rewrite Et; auto].
    destruct (take_In _ _ _ _ Et) as [Ha Hrest].
    rewrite (step_query_failed _ _ _ _ _ Et).
    intros Hs; left; revert Hs; destruct a; apply Hsub; cbn; eauto.
  - unfold step; destruct (nth_error (children s) pid) as [c|] eqn:En; [|auto].
    destruct (closed c); [auto|].
    intros Hs; left; revert Hs; apply Hsub; cbn; eauto.
    intros a Hin Hw; apply in_app_or in Hin; destruct Hin as [Hin|[<-|[]]]; [eauto|].
    destruct Hw as [Hj Ho]; exact (Hchild c (nth_error_In _ _ En) Hj Ho).
  - unfold step; destruct (nth_error (children s) pid) as [c|] eqn:En; [|auto].
    destruct (closed c); [auto|].
    intros Hs; left; revert Hs; apply Hsub; cbn; eauto.
    + intros c0 Hin Hj Ho; destruct (mark_closed_In _ _ _ Hin) as (c1 & H1 & E1 & E2).
      apply (Hchild c1 H1); congruence.
    + intros a Hin Hw; apply in_app_or in Hin; destruct Hin as [Hin|[<-|[]]]; [eauto|].
      destruct Hw as [Hj Ho]; exact (Hchild c (nth_error_In _ _ En) Hj Ho).
  - auto.
Qed.

Lemma one_socket_step s i :
  wf s -> children_counted s -> one_socket s -> one_socket (step s i).
Proof.
  intros Hwf Hc H id k k' Hk Hk'.
  destruct (serves_step s i id k Hwf Hc Hk) as [Hold|[Hnew (n & now & sp & c & rest & Ei & Et)]];
    destruct (serves_step s i id k' Hwf Hc Hk')
      as [Hold'|[Hnew' (n' & now' & sp' & c' & rest' & Ei' & Et')]].
  - exact (H id k k' Hold Hold').
  - exfalso; exact (Hnew' k Hold).
  - exfalso; exact (Hnew k' Hold').
  - rewrite Ei in Ei'; inversion Ei'; subst; rewrite Et in Et'; inversion Et'; reflexivity.
Qed.

(** X11. All events of a job go to one socket: [job-started], every [job-log]
    and [job-finished] of a job id are sent on the same connection, the one
    whose [execute-command] inserted the job, whatever else runs at the same
    time. *)
Theorem job_events_on_one_socket (s : state) (tr : list input) (id : string)
    (k k' : nat) (e e' : event) :
  wf s -> children_counted s -> one_socket s ->
  In (k, e) (emitted (run s tr)) -> of_job id (k, e) = true ->
  In (k', e') (emitted (run s tr)) -> of_job id (k', e') = true ->
  k = k'.
Proof.
  intros Hwf Hc H Hin Hj Hin' Hj'.
  assert (Hrun : one_socket (run s tr)).
  { clear Hin Hin'; revert s Hwf Hc H; induction tr as [|i tr IH]; intros s Hwf Hc H; [exact H|].
    cbn [run fold_left]; apply IH;
      [apply wf_step, Hwf|apply children_counted_step, Hc|apply one_socket_step; assumption]. }
  apply (Hrun id); left; eauto.
Qed.

Lemma one_socket_init : one_socket init.
Proof.
  intros id k k' [(e & [] & _)|[(c & [] & _)|(a & [] & _)]].
Qed.

Lemma job_events_on_one_socket_witness :
  In (1, ev_job_started "j2" "echo Simulating make logs...fake log output.")
     (emitted (run init two_sockets_trace)) /\
  In (1, ev_job_log "j2" stdout "logs") (emitted (run init two_sockets_trace)) /\
  1 = 1.
Proof.
  assert (H1 : In (1, ev_job_started "j2" "echo Simulating make logs...fake log output.")
                  (emitted (run init two_sockets_trace))) by (left; reflexivity).
  assert (H2 : In (1, ev_job_log "j2" stdout "logs") (emitted (run init two_sockets_trace)))
    by (right; right; right; left; reflexivity).
  split; [exact H1|split; [exact H2|]].
  exact (job_events_on_one_socket init two_sockets_trace "j2" 1 1 _ _
           wf_init children_counted_init one_socket_init H1 eq_refl H2 eq_refl).
Defined.

(** ** Sockets that go away *)

Lemma step_delivery s i :
  is_disconnect i = false ->
  exists E,
    emitted (step s i) = emitted s ++ E /\
    delivered (step s i) = delivered s ++ filter (fun e => is_connected (fst e) s) E /\
    disconnected (step s i) = disconnected s.
Proof.
  intros Hi.
  assert (Hnone : forall s', emitted s' = emitted s -> delivered s' = delivered s ->
                    disconnected s' = disconnected s ->
                    exists E, emitted s' = emitted s ++ E /\
                      delivered s' = delivered s ++ filter (fun e => is_connected (fst e) s) E /\
                      disconnected s' = disconnected s).
  { intros s' -> -> ->; exists []; cbn; rewrite !app_nil_r; auto. }
  assert (Hone : forall s0 k e, emitted s0 = emitted s -> delivered s0 = delivered s ->
                    disconnected s0 = disconnected s ->
                    exists E, emitted (emit k e s0) = emitted s ++ E /\
                      delivered (emit k e s0) =
                        delivered s ++ filter (fun e => is_connected (fst e) s) E /\
                      disconnected (emit k e s0) = disconnected s).
  { intros s0 k e He Hd Hc; exists [(k, e)]; cbn [emit emitted delivered disconnected filter fst].
    unfold is_connected; rewrite He, Hd, Hc.
    destruct (negb (existsb (Nat.eqb k) (disconnected s))); rewrite ?app_nil_r; auto. }
  destruct i as [sock key uuid|n now sp|n m|pid st chunk|pid code|sock];
    [| | | | |discriminate]; unfold step.
  - destruct (lookup key); [apply Hnone; reflexivity|apply Hnone; reflexivity|].
    apply Hone; reflexivity.
  - destruct (take n (pending s)) as [[a rest]|]; [|apply Hnone; reflexivity].
    cbv zeta; destruct (exec_sql (stmt_of a) now (db (set_pending rest s))) as [m|d].
    + destruct a; cbn [resume_rejected]; [apply Hone|apply Hnone|apply Hnone]; reflexivity.
    + destruct a as [sk id c|sk id st chunk|sk id code]; cbn [resume];
        [|apply Hone; reflexivity|apply Hone; reflexivity].
      destruct sp as [|m|m].
      * destruct (Hone (set_db d (set_pending rest s)) sk (ev_job_started id (cmdStr c))
                    eq_refl eq_refl eq_refl) as (E & A & B & C).
        exists E; cbn [set_children emitted delivered disconnected]; auto.
      * exists [(sk, ev_job_started id (cmdStr c)); (sk, ev_error m)].
        unfold emit, is_connected;
          cbn [emitted delivered disconnected set_db set_pending filter fst].
        destruct (negb (existsb (Nat.eqb sk) (disconnected s)));
          cbn [app]; rewrite <- ?app_assoc, ?app_nil_r; auto.
      * destruct (Hone (set_db d (set_pending rest s)) sk (ev_job_started id (cmdStr c))
                    eq_refl eq_refl eq_refl) as (E & A & B & C).
        exists E; cbn [reject emitted delivered disconnected]; auto.
  - destruct (take n (pending s)) as [[a rest]|]; [|apply Hnone; reflexivity].
    destruct a; cbn [resume_rejected]; [apply Hone|apply Hnone|apply Hnone]; reflexivity.
  - destruct (nth_error (children s) pid) as [c|]; [|apply Hnone; reflexivity].
    destruct (closed c); apply Hnone; reflexivity.
  - destruct (nth_error (children s) pid) as [c|]; [|apply Hnone; reflexivity].
    destruct (closed c); apply Hnone; reflexivity.
Qed.

Lemma sent_to_disconnected k s E :
  In k (disconnected s) ->
  sent_to k (filter (fun e => is_connected (fst e) s) E) = [].
Proof.
  intros Hk; unfold sent_to; induction E as [|e E IH]; [reflexivity|].
  cbn [filter]; destruct (is_connected (fst e) s) eqn:Ec; [|exact IH].
  cbn [filter]; destruct (Nat.eqb (fst e) k) eqn:Ek; [|exact IH].
  apply Nat.eqb_eq in Ek; subst k; unfold is_connected in Ec.
  apply negb_true_iff in Ec.
  assert (existsb (Nat.eqb (fst e)) (disconnected s) = true); [|congruence].
  apply existsb_exists; exists (fst e); split; [exact Hk|apply Nat.eqb_refl].
Qed.

(** X12. Once a socket has disconnected nothing is delivered to it any more,
    whatever its jobs go on to produce. *)
Theorem nothing_delivered_after_disconnect (s : state) (k : nat) (tr : list input) :
  sent_to k (delivered (run (step s (disconnect k)) tr)) = sent_to k (delivered s).
Proof.
  change (sent_to k (delivered s)) with (sent_to k (delivered (step s (disconnect k)))).
  assert (Hk : In k (disconnected (step s (disconnect k)))) by (left; reflexivity).
  generalize dependent (step s (disconnect k)); clear s.
  induction tr as [|i tr IH]; intros s Hk; [reflexivity|].
  cbn [run fold_left]; fold (run (step s i) tr).
  destruct (is_disconnect i) eqn:Ei.
  - destruct i; try discriminate; rewrite IH; [reflexivity|right; exact Hk].
  - destruct (step_delivery s i Ei) as (E & _ & Hd & Hc).
    rewrite IH by (rewrite Hc; exact Hk).
    rewrite Hd; unfold sent_to at 1; rewrite filter_app.
    fold (sent_to k (delivered s)); fold (sent_to k (filter (fun e => is_connected (fst e) s) E)).
    rewrite (sent_to_disconnected k s E Hk), app_nil_r; reflexivity.
Qed.

Lemma filter_all {A : Type} (p : A -> bool) (l : list A) :
  (forall x, In x l -> p x = true) -> filter p l = l.
Proof.
  induction l as [|a l IH]; intros H; [reflexivity|].
  cbn [filter]; rewrite (H a (or_introl eq_refl)), IH; [reflexivity|].
  intros x Hx; apply H; right; exact Hx.
Qed.

Lemma run_delivery tr : forall s,
  forallb (fun i => negb (is_disconnect i)) tr = true ->
  exists E,
    emitted (run s tr) = emitted s ++ E /\
    delivered (run s tr) = delivered s ++ filter (fun e => is_connected (fst e) s) E /\
    disconnected (run s tr) = disconnected s.
Proof.
  induction tr as [|i tr IH]; intros s Hf.
  - exists []; cbn; rewrite !app_nil_r; auto.
  - cbn [forallb] in Hf; apply andb_true_iff in Hf; destruct Hf as [Hi Hf].
    apply negb_true_iff in Hi.
    cbn [run fold_left]; fold (run (step s i) tr).
    destruct (step_delivery s i Hi) as (E1 & A1 & B1 & C1).
    destruct (IH (step s i) Hf) as (E2 & A2 & B2 & C2).
    assert (Hc : filter (fun e => is_connected (fst e) (step s i)) E2 =
                 filter (fun e => is_connected (fst e) s) E2)
      by (apply filter_ext; intros e; unfold is_connected; rewrite C1; reflexivity).
    exists (E1 ++ E2); rewrite A2, B2, C2, A1, B1, C1, Hc, filter_app, !app_assoc.
    repeat split; reflexivity.
Qed.

(** X13. While no socket disconnects, a socket that is connected is delivered
    every event the server sends it: along a run without [disconnect] the
    deliveries are the sent events whose socket was connected at the start. *)
Theorem connected_sockets_miss_nothing (s : state) (tr : list input) :
  forallb (fun i => negb (is_disconnect i)) tr = true ->
  exists E,
    emitted (run s tr) = emitted s ++ E /\
    delivered (run s tr) = delivered s ++ filter (fun e => is_connected (fst e) s) E /\
    (disconnected s = [] -> delivered (run s tr) = delivered s ++ E).
Proof.
  intros Hf; destruct (run_delivery tr s Hf) as (E & A & B & C).
  exists E; split; [exact A|split; [exact B|]].
  intros Hd; rewrite B, filter_all; [reflexivity|].
  intros e _; unfold is_connected; rewrite Hd; reflexivity.
Qed.

Lemma connected_sockets_miss_nothing_witness :
  exists E,
    emitted (run init racing_trace) = emitted init ++ E /\
    delivered (run init racing_trace) = delivered init ++ E.
Proof.
  destruct (connected_sockets_miss_nothing init racing_trace eq_refl) as (E & A & _ & C).
  exists E; split; [exact A|exact (C eq_refl)].
Defined.

Lemma step_ignores_sockets s1 s2 i :
  db s1 = db s2 -> pending s1 = pending s2 -> children s1 = children s2 ->
  emitted s1 = emitted s2 -> unhandled s1 = unhandled s2 ->
  db (step s1 i) = db (step s2 i) /\ pending (step s1 i) = pending (step s2 i) /\
  children (step s1 i) = children (step s2 i) /\
  emitted (step s1 i) = emitted (step s2 i) /\
  unhandled (step s1 i) = unhandled (step s2 i).
Proof.
  destruct s1 as [d1 p1 c1 e1 dl1 dc1 u1], s2 as [d2 p2 c2 e2 dl2 dc2 u2]; cbn.
  intros -> -> -> -> ->.
  destruct i as [sock key uuid|n now sp|n m|pid st chunk|pid code|sock]; unfold step; cbn.
  - destruct (lookup key); cbn; auto.
  - destruct (take n p2) as [[a rest]|]; cbn; auto.
    destruct (exec_sql (stmt_of a) now d2); destruct a; try destruct sp; cbn; auto.
  - destruct (take n p2) as [[a rest]|]; cbn; auto.
    destruct a; cbn; auto.
  - destruct (nth_error c2 pid) as [c|]; cbn; auto.
    destruct (closed c); cbn; auto.
  - destruct (nth_error c2 pid) as [c|]; cbn; auto.
    destruct (closed c); cbn; auto.
  - auto.
Qed.

(** X14. A client that disconnects stops nothing: with the [disconnect]
    inputs of a run taken out, the tables, the children, the pending queries
    and the events the server sends are exactly the same. *)
Theorem disconnects_change_nothing_else (s : state) (tr : list input) :
  db (run s tr) = db (run s (without_disconnects tr)) /\
  pending (run s tr) = pending (run s (without_disconnects tr)) /\
  children (run s tr) = children (run s (without_disconnects tr)) /\
  emitted (run s tr) = emitted (run s (without_disconnects tr)).
Proof.
  assert (H : forall s1 s2,
            db s1 = db s2 -> pending s1 = pending s2 -> children s1 = children s2 ->
            emitted s1 = emitted s2 -> unhandled s1 = unhandled s2 ->
            db (run s1 tr) = db (run s2 (without_disconnects tr)) /\
            pending (run s1 tr) = pending (run s2 (without_disconnects tr)) /\
            children (run s1 tr) = children (run s2 (without_disconnects tr)) /\
            emitted (run s1 tr) = emitted (run s2 (without_disconnects tr))).
  { induction tr as [|i tr IH]; intros s1 s2 A B C D E; [cbn; auto|].
    unfold without_disconnects; cbn [filter run fold_left].
    destruct (is_disconnect i) eqn:Ei; cbn [negb].
    - destruct i; try discriminate; apply IH; assumption.
    - cbn [fold_left].
      destruct (step_ignores_sockets s1 s2 i A B C D E) as (A' & B' & C' & D' & E').
      apply IH; assumption. }
  apply H; reflexivity.
Qed.

(** ** The page *)

Lemma string_app_nil_r (a : string) : (a ++ "")%string = a.
Proof. induction a as [|ch a IH]; [reflexivity|cbn; rewrite IH; reflexivity]. Qed.

Lemma string_app_assoc (a b c : string) : ((a ++ b) ++ c)%string = (a ++ (b ++ c))%string.
Proof. induction a as [|ch a IH]; [reflexivity|cbn; rewrite IH; reflexivity]. Qed.

Lemma concat_empty_cons (a : string) (l : list string) :
  String.concat "" (a :: l) = (a ++ String.concat "" l)%string.
Proof. destruct l; cbn; [rewrite string_app_nil_r|]; reflexivity. Qed.

Lemma page_run_no_click l : forall p,
  forallb (fun i => negb (is_click i)) l = true ->
  App.logs (page_run p l) = (App.logs p ++ String.concat "" (map shown l))%string /\
  App.emits (page_run p l) = App.emits p.
Proof.
  induction l as [|i l IH]; intros p Hf.
  - cbn; rewrite string_app_nil_r; auto.
  - cbn [forallb] in Hf; apply andb_true_iff in Hf; destruct Hf as [Hi Hf].
    cbn [page_run fold_left map]; fold (page_run (page_step p i) l).
    destruct (IH (page_step p i) Hf) as [A B]; rewrite A, B, concat_empty_cons.
    destruct i as [| |e|j|cmd]; try discriminate; try destruct e; cbn;
      rewrite ?string_app_assoc; auto.
Qed.

(** X17. The console of the page shows what arrived since the last click and
    nothing else: after a click, whatever came before, [logs] is the
    concatenation, in arrival order, of the chunks of the [job-log] events
    received since, of whatever job and stream. *)
Theorem console_shows_output_since_click (p : App.t) (before after : list page_input)
    (cmd : string) :
  forallb (fun i => negb (is_click i)) after = true ->
  App.logs (page_run p (before ++ click cmd :: after)) = String.concat "" (map shown after) /\
  App.emits (page_run p (before ++ click cmd :: after)) =
    App.emits (page_run p before) ++ [cmd].
Proof.
  intros Hf; unfold page_run; rewrite fold_left_app; cbn [fold_left].
  fold (page_run p before).
  fold (page_run (page_step (page_run p before) (click cmd)) after).
  destruct (page_run_no_click after (page_step (page_run p before) (click cmd)) Hf) as [A B].
  rewrite A, B; auto.
Qed.

Lemma console_shows_output_since_click_witness :
  App.logs (page_run mounted
    [ socket_connect; socket_event (ev_job_log "j0" stdout "old");
      click "vm-status";
      socket_event (ev_job_started "j1" "echo Simulating make status...done.");
      socket_event (ev_job_log "j1" stdout "a"); socket_event (ev_job_log "j2" stderr "b");
      socket_event (ev_job_finished "j1" success (Some 0%Z)) ]) = "ab".
Proof.
  exact (proj1 (console_shows_output_since_click mounted
    [ socket_connect; socket_event (ev_job_log "j0" stdout "old") ]
    [ socket_event (ev_job_started "j1" "echo Simulating make status...done.");
      socket_event (ev_job_log "j1" stdout "a"); socket_event (ev_job_log "j2" stderr "b");
      socket_event (ev_job_finished "j1" success (Some 0%Z)) ]
    "vm-status" eq_refl)).
Defined.


Lemma sent_to_log_events k id chunks :
  sent_to k (map (log_event k id) chunks) = map (log_event k id) chunks.
Proof.
  unfold sent_to; apply filter_all; intros e He; apply in_map_iff in He.
  destruct He as (ch & <- & _); apply Nat.eqb_refl.
Qed.




(** ** The history after a job *)






(** X16. With at most ten jobs in the table the history leaves none out: it
    is the whole table, reordered. *)
Theorem short_history_is_complete (limit : option nat) (rows : list jobs.row) :
  List.length rows <= 10 ->
  exists l, api_jobs limit None rows = res_json l /\ Permutation l rows.
Proof.
  intros Hlen; exists (SELECT_jobs rows); split; [reflexivity|].
  unfold SELECT_jobs; rewrite firstn_all2.
  - apply Permutation_sym, order_by_perm.
  - rewrite <- (Permutation_length (order_by_perm rows)); exact Hlen.
Qed.

Lemma short_history_is_complete_witness :
  exists l, api_jobs None None (tbl_jobs finished_db) = res_json l /\
            Permutation l (tbl_jobs finished_db).
Proof.
  apply (short_history_is_complete None (tbl_jobs finished_db)).
  cbn; lia.
Defined.

(** ** The command line and the registry *)

(** X2. The command line of a job is the program and its arguments joined
    by single spaces, with no quoting: an argument that contains a space
    reads as two arguments, and a command without arguments ends in a
    space. *)
Theorem command_line_is_not_quoted (ty : job_type) (program a b : string)
    (rest : list string) :
  cmdStr {| type := ty; cmd := program; args := (a ++ " " ++ b)%string :: rest |} =
  cmdStr {| type := ty; cmd := program; args := a :: b :: rest |} /\
  cmdStr {| type := ty; cmd := program; args := [] |} = (program ++ " ")%string.
Proof.
  split; [|reflexivity].
  unfold cmdStr; cbn [cmd args]; do 2 f_equal.
  destruct rest as [|x rest]; cbn [String.concat].
  - reflexivity.
  - rewrite !string_app_assoc; reflexivity.
Qed.

Lemma lookup_undefined_iff key :
  lookup key = undefined <->
  ~ In key (map fst COMMANDS) /\ ~ In key Object_prototype.
Proof.
  unfold lookup.
  assert (Hown : own_property COMMANDS key = None <-> ~ In key (map fst COMMANDS)).
  { induction COMMANDS as [|[k c] l IH]; cbn; [tauto|].
    destruct (String.eqb k key) eqn:E.
    - apply String.eqb_eq in E; split; [discriminate|intros H; exfalso; apply H; auto].
    - apply String.eqb_neq in E; rewrite IH; tauto. }
  destruct (own_property COMMANDS key) as [c|].
  - split; [discriminate|intros [H _]; apply Hown in H; discriminate].
  - destruct (existsb (String.eqb key) Object_prototype) eqn:E.
    + split; [discriminate|intros [_ H]; exfalso; apply H].
      apply existsb_exists in E; destruct E as (x & Hx & Ex).
      apply String.eqb_eq in Ex; subst; exact Hx.
    + split; [intros _|reflexivity]; split; [apply Hown; reflexivity|].
      intros Hin; assert (existsb (String.eqb key) Object_prototype = true); [|congruence].
      apply existsb_exists; exists key; split; [exact Hin|apply String.eqb_refl].
Qed.

(** X1. A key that is neither one of the registered commands nor a name
    every object inherits is refused: the socket that sent it is sent one
    [error] event, ["Unknown command: "] followed by the key, and nothing else
    happens: no query is sent, no child started, no table touched. *)
Theorem unknown_key_is_refused (s : state) (sock : nat) (key uuid : string) :
  ~ In key (map fst COMMANDS) ->
  ~ In key Object_prototype ->
  emitted (step s (execute_command sock key uuid)) =
    emitted s ++ [(sock, ev_error ("Unknown command: " ++ key)%string)] /\
  db (step s (execute_command sock key uuid)) = db s /\
  pending (step s (execute_command sock key uuid)) = pending s /\
  children (step s (execute_command sock key uuid)) = children s /\
  unhandled (step s (execute_command sock key uuid)) = unhandled s.
Proof.
  intros H1 H2; unfold step.
  rewrite (proj2 (lookup_undefined_iff key) (conj H1 H2)); cbn; auto.
Qed.

Lemma unknown_key_is_refused_witness :
  emitted (step init (execute_command 3 "nope" "j1")) =
    [(3, ev_error "Unknown command: nope")].
Proof.
  refine (proj1 (unknown_key_is_refused init 3 "nope" "j1" _ _)).
  - cbn; intros [H|[H|[H|[]]]]; discriminate.
  - cbn; intuition discriminate.
Defined.

(** ** The chunks of a job keep their order *)

Lemma chunks_of_step id s i :
  wf s -> in_order i -> is_failure i = false ->
  chunks_of id (step s i) = chunks_of id s ++ arrived id s i.
Proof.
  intros Hwf Hi Hf; unfold chunks_of.
  destruct i as [sock key uuid|n now sp|n m|pid st chunk|pid code|sock];
    [| |discriminate| | |]; cbn [in_order arrived] in *; unfold step.
  - rewrite app_nil_r; destruct (lookup key); cbn [db pending emit reject suspend];
      rewrite ?flat_map_app; cbn; rewrite ?app_nil_r; reflexivity.
  - subst n; rewrite app_nil_r.
    destruct (take 0 (pending s)) as [[a rest]|] eqn:Et; [|reflexivity].
    pose proof (take_In _ _ _ _ Et) as [Ha _].
    apply take_head in Et; rewrite Et; cbv zeta; cbn [db set_pending flat_map].
    destruct a as [sk id0 c|sk id0 st chunk|sk id0 code]; cbn [stmt_of exec_sql pending_chunk].
    + destruct (has_job id0 (tbl_jobs (db s))); [reflexivity|].
      rewrite db_resume; destruct sp; reflexivity.
    + assert (Hj : String.eqb id0 id = true -> has_job id0 (tbl_jobs (db s)) = true).
      { intros E; apply String.eqb_eq in E; subst id0.
        destruct (Hwf id) as [_ _ _ _ K5 K6 _].
        assert (Hp : is_log id (awaiting_insert_log sk id st chunk) = true)
          by (cbn; apply String.eqb_refl).
        pose proof (count_In (is_log id) _ _ Ha Hp).
        rewrite has_job_count; destruct (count (is_row id) (tbl_jobs (db s))) eqn:Ec;
          [lia|reflexivity]. }
      destruct (has_job id0 (tbl_jobs (db s))) eqn:Hh.
      * cbn [resume db emit set_db set_pending tbl_job_logs pending].
        rewrite flat_map_app; cbn [flat_map stored_chunk job_logs.job_id job_logs.stream
                                   job_logs.data]; rewrite app_nil_r, <- app_assoc; reflexivity.
      * cbn [resume_rejected db pending reject set_pending].
        destruct (String.eqb id0 id) eqn:E; [specialize (Hj eq_refl); congruence|reflexivity].
    + reflexivity.
  - destruct (nth_error (children s) pid) as [c|]; [|rewrite app_nil_r; reflexivity].
    destruct (closed c); [rewrite app_nil_r; reflexivity|].
    cbn [db pending suspend]; rewrite flat_map_app; cbn [flat_map pending_chunk].
    rewrite app_nil_r, app_assoc; reflexivity.
  - rewrite app_nil_r.
    destruct (nth_error (children s) pid) as [c|]; [|reflexivity].
    destruct (closed c); [reflexivity|].
    cbn [db pending suspend set_children]; rewrite flat_map_app; cbn; rewrite app_nil_r.
    reflexivity.
  - rewrite app_nil_r; reflexivity.
Qed.

(** X7. No chunk is lost, repeated or reordered while the store answers: along
    a run in which the queries are settled in the order sent and none is
    lost, the chunks of a job that are stored or waiting to be stored are
    those it had before followed by those its child produced, in the order
    they arrived; when no append of the job is pending they are all in
    [job_logs]. *)
Theorem chunks_keep_arrival_order (s : state) (tr : list input) (id : string) :
  wf s ->
  Forall in_order tr ->
  forallb (fun i => negb (is_failure i)) tr = true ->
  chunks_of id (run s tr) = chunks_of id s ++ arrivals id s tr /\
  (count (is_log id) (pending (run s tr)) = 0 ->
   flat_map (stored_chunk id) (tbl_job_logs (db (run s tr))) =
   chunks_of id s ++ arrivals id s tr).
Proof.
  intros Hwf Ho Hf.
  assert (H : chunks_of id (run s tr) = chunks_of id s ++ arrivals id s tr).
  { revert s Hwf; induction tr as [|i tr IH]; intros s Hwf; [cbn; rewrite app_nil_r; reflexivity|].
    inversion Ho; subst; cbn [forallb] in Hf; apply andb_true_iff in Hf.
    destruct Hf as [Hi Hf]; apply negb_true_iff in Hi.
    cbn [run fold_left arrivals]; fold (run (step s i) tr).
    rewrite IH by (try apply wf_step; assumption).
    rewrite chunks_of_step by assumption.
    rewrite app_assoc; reflexivity. }
  split; [exact H|].
  intros Hp; rewrite <- H; unfold chunks_of.
  assert (Hnone : flat_map (pending_chunk id) (pending (run s tr)) = []).
  { revert Hp; induction (pending (run s tr)) as [|a l IHl]; [reflexivity|].
    rewrite count_cons; cbn [flat_map]; intros Hc.
    rewrite IHl by lia.
    destruct a as [sk i c|sk i st chunk|sk i code]; cbn in *; try reflexivity.
    destruct (String.eqb i id); [lia|reflexivity]. }
  rewrite Hnone, app_nil_r; reflexivity.
Qed.

Lemma interleaved_trace_in_order : Forall in_order interleaved_trace.
Proof. repeat constructor. Qed.

Lemma chunks_keep_arrival_order_witness :
  flat_map (stored_chunk "j1") (tbl_job_logs (db (run init interleaved_trace))) =
  [(stdout, "a"); (stderr, "b"); (stdout, "c")].
Proof.
  exact (proj2 (chunks_keep_arrival_order init interleaved_trace "j1"
                  wf_init interleaved_trace_in_order eq_refl) eq_refl).
Defined.
